(** * CoffeeDashboard.jsx: row normalisation, filtering and aggregation

    A shallow embedding of the data core of [src/CoffeeDashboard.jsx]:
    the [data] normaliser (lines 43-56), [coffeeOptions] (59-62), [filtered]
    (64-70), the KPIs (73-75), [salesByTime] and [peakTime] (78-89),
    [top3Overall] and [top3BySlot] (92-118), the per-slot metrics table
    (215-220), the handlers of the filter controls (141, 156, 162) and
    [formatMoney] (18-21).

    JavaScript numbers are IEEE-754 binary64 values: they are modelled by
    Rocq's primitive [float], whose operations are specified against
    [SpecFloat] by the axioms of [FloatAxioms].  The built-ins the code
    calls ([parseFloat], [Number], [Number.prototype.toString],
    [Number.prototype.toFixed], [Array.prototype.sort], [Map], [Set]) are
    modelled after ECMA-262.  Strings are sequences of 8-bit code units. *)

From Stdlib Require Import ZArith List Bool Ascii String Lia.
From Stdlib Require Import Sorted Permutation.
From Stdlib Require Import Floats.
From stdpp Require Import base strings gmap.
Import ListNotations.

Local Open Scope string_scope.
Local Open Scope list_scope.
Local Open Scope Z_scope.

(** ** Decimal text and binary64 *)

Module Dec.

(** The Number value of the real [m * 10^e] with [m > 0]: the nearest
    binary64 value, ties to even, overflowing to an infinity. *)
Definition round_pos (s : bool) (m : positive) (e : Z) : spec_float :=
  match e with
  | Zneg k =>
      SFdiv prec emax (S754_finite s m 0)
                      (S754_finite false (Pos.pow 10 k) 0)
  | _ => binary_normalize prec emax
           (cond_Zopp s (Zpos m * 10 ^ e)) 0 false
  end.

Definition to_float (s : bool) (m : Z) (e : Z) : float :=
  match m with
  | Zpos p => SF2Prim (round_pos s p e)
  | _ => if s then neg_zero else zero
  end.

Definition of_nat (n : nat) : float := to_float false (Z.of_nat n) 0.

Definition is_digit (c : ascii) : bool :=
  let n := Z.of_N (N_of_ascii c) in (48 <=? n) && (n <=? 57).

Definition digit_val (c : ascii) : Z := Z.of_N (N_of_ascii c) - 48.

Definition digits_val (base : Z) (val : ascii -> Z) (l : list ascii) : Z :=
  fold_left (fun acc c => acc * base + val c) l 0.

Fixpoint span (p : ascii -> bool) (l : list ascii)
  : list ascii * list ascii :=
  match l with
  | c :: l' =>
      if p c then let '(a, b) := span p l' in (c :: a, b) else ([], l)
  | [] => ([], [])
  end.

(** Decimal digits of a non-negative integer, most significant first. *)
Fixpoint digits_fuel (fuel : nat) (n : Z) (acc : list ascii) : list ascii :=
  match fuel with
  | O => acc
  | S fuel' =>
      let c := ascii_of_N (Z.to_N (48 + n mod 10)) in
      if n <? 10 then c :: acc else digits_fuel fuel' (n / 10) (c :: acc)
  end.

Definition digits (n : Z) : list ascii :=
  digits_fuel (S (Z.to_nat (Z.log2 n))) n [].

End Dec.

(** ** JavaScript values *)

(** The scalars a sheet cell or a record field can hold. *)
Inductive value :=
| VUndefined
| VNull
| VBool (b : bool)
| VNum (x : float)
| VStr (s : string).

(** ToBoolean. *)
Definition num_truthy (x : float) : bool := negb (is_zero x || is_nan x).

Definition truthy (v : value) : bool :=
  match v with
  | VUndefined | VNull => false
  | VBool b => b
  | VNum x => num_truthy x
  | VStr s => negb (String.eqb s "")
  end.

(** [a || b] *)
Definition js_or (a b : value) : value := if truthy a then a else b.

(** [a || b] on two numbers. *)
Definition num_or (a b : float) : float := if num_truthy a then a else b.

(** [a === b] *)
Definition strict_eq (a b : value) : bool :=
  match a, b with
  | VUndefined, VUndefined | VNull, VNull => true
  | VBool x, VBool y => Bool.eqb x y
  | VNum x, VNum y => (x =? y)%float
  | VStr x, VStr y => String.eqb x y
  | _, _ => false
  end.

(** SameValueZero, the key equality of [Map] and [Set]. *)
Definition same_value_zero (a b : value) : bool :=
  match a, b with
  | VNum x, VNum y => (x =? y)%float || (is_nan x && is_nan y)
  | _, _ => strict_eq a b
  end.

(** ** Number <-> String *)

Module Num.
Import Dec.

(** WhiteSpace and LineTerminator code units below 256. *)
Definition is_space (c : ascii) : bool :=
  let n := Z.of_N (N_of_ascii c) in
  ((9 <=? n) && (n <=? 13)) || (n =? 32) || (n =? 160).

Definition is_char (a c : ascii) : bool := Ascii.eqb a c.

Inductive literal := LInf | LFin (m e : Z).

Fixpoint strip_prefix (p l : list ascii) : option (list ascii) :=
  match p, l with
  | [], _ => Some l
  | a :: p', c :: l' => if Ascii.eqb a c then strip_prefix p' l' else None
  | _ :: _, [] => None
  end.

(** ExponentPart, when one is present: the exponent and what follows. *)
Definition exponent_part (l : list ascii) : option (Z * list ascii) :=
  match l with
  | c :: l1 =>
      if is_char "e" c || is_char "E" c then
        let '(neg, l2) :=
          match l1 with
          | s :: l2 =>
              if is_char "-" s then (true, l2)
              else if is_char "+" s then (false, l2)
              else (false, l1)
          | [] => (false, l1)
          end in
        match span is_digit l2 with
        | ([], _) => None
        | (ds, rest) =>
            let v := digits_val 10 digit_val ds in
            Some (if neg then - v else v, rest)
        end
      else None
  | [] => None
  end.

Definition with_exponent (m e : Z) (l : list ascii)
  : literal * list ascii :=
  match exponent_part l with
  | Some (x, rest) => (LFin m (e + x), rest)
  | None => (LFin m e, l)
  end.

(** The longest prefix that is a StrUnsignedDecimalLiteral. *)
Definition unsigned_literal (l : list ascii)
  : option (literal * list ascii) :=
  match strip_prefix (list_ascii_of_string "Infinity") l with
  | Some rest => Some (LInf, rest)
  | None =>
      match span is_digit l with
      | ([], _) =>
          match l with
          | c :: l1 =>
              if is_char "." c then
                match span is_digit l1 with
                | ([], _) => None
                | (fs, rest) =>
                    Some (with_exponent (digits_val 10 digit_val fs)
                            (- Z.of_nat (length fs)) rest)
                end
              else None
          | [] => None
          end
      | (ds, l1) =>
          match l1 with
          | c :: l2 =>
              if is_char "." c then
                let '(fs, rest) := span is_digit l2 in
                Some (with_exponent (digits_val 10 digit_val (ds ++ fs))
                        (- Z.of_nat (length fs)) rest)
              else Some (with_exponent (digits_val 10 digit_val ds) 0 l1)
          | [] => Some (with_exponent (digits_val 10 digit_val ds) 0 l1)
          end
      end
  end.

(** The longest prefix that is a StrDecimalLiteral, as a Number. *)
Definition decimal_literal (l : list ascii) : option (float * list ascii) :=
  let '(neg, l1) :=
    match l with
    | s :: l1 =>
        if is_char "-" s then (true, l1)
        else if is_char "+" s then (false, l1)
        else (false, l)
    | [] => (false, l)
    end in
  match unsigned_literal l1 with
  | Some (LInf, rest) => Some (if neg then neg_infinity else infinity, rest)
  | Some (LFin m e, rest) => Some (to_float neg m e, rest)
  | None => None
  end.

Fixpoint drop_spaces (l : list ascii) : list ascii :=
  match l with
  | c :: l' => if is_space c then drop_spaces l' else l
  | [] => []
  end.

(** [parseFloat(s)] *)
Definition parseFloat (s : string) : float :=
  match decimal_literal (drop_spaces (list_ascii_of_string s)) with
  | Some (x, _) => x
  | None => nan
  end.

Definition hex_val (c : ascii) : option Z :=
  let n := Z.of_N (N_of_ascii c) in
  if (48 <=? n) && (n <=? 57) then Some (n - 48)
  else if (97 <=? n) && (n <=? 102) then Some (n - 87)
  else if (65 <=? n) && (n <=? 70) then Some (n - 55)
  else None.

Definition radix_digit (base : Z) (c : ascii) : bool :=
  match hex_val c with
  | Some d => d <? base
  | None => false
  end.

Definition radix_val (c : ascii) : Z :=
  match hex_val c with Some d => d | None => 0 end.

(** NonDecimalIntegerLiteral: 0x, 0o and 0b forms. *)
Definition non_decimal_literal (l : list ascii)
  : option (float * list ascii) :=
  match l with
  | z :: r :: l1 =>
      if is_char "0" z then
        let base :=
          if is_char "x" r || is_char "X" r then 16
          else if is_char "o" r || is_char "O" r then 8
          else if is_char "b" r || is_char "B" r then 2
          else 0 in
        match span (radix_digit base) l1 with
        | ([], _) => None
        | (ds, rest) =>
            Some (to_float false (digits_val base radix_val ds) 0, rest)
        end
      else None
  | _ => None
  end.

(** StringToNumber: what [Number(s)] returns for a string. *)
Definition of_string (s : string) : float :=
  match drop_spaces (list_ascii_of_string s) with
  | [] => zero
  | l =>
      match non_decimal_literal l with
      | Some (x, rest) =>
          match drop_spaces rest with [] => x | _ => nan end
      | None =>
          match decimal_literal l with
          | Some (x, rest) =>
              match drop_spaces rest with [] => x | _ => nan end
          | None => nan
          end
      end
  end.

(** *** Number::toString, radix 10 *)

(** [x] as the exact fraction [num / den] for a positive finite [x]. *)
Definition fraction (m : positive) (e : Z) : Z * Z :=
  match e with
  | Zneg k => (Zpos m, Zpos (Pos.pow 2 k))
  | _ => (Zpos m * 2 ^ e, 1)
  end.

(** The [n] with [10^(n-1) <= num/den < 10^n]. *)
Fixpoint scale_up (fuel : nat) (num den : Z) (n : Z) : Z :=
  match fuel with
  | O => n
  | S fuel' =>
      if den <=? num then n else scale_up fuel' (num * 10) den (n - 1)
  end.

Definition magnitude (num den : Z) : Z :=
  if den <=? num then Z.of_nat (length (digits (num / den)))
  else scale_up 400 num den 1.

(** The candidates with [k] digits: [Some (s, n)] when [s * 10^(n-k)]
    has [x] for Number value, the closest to [x] first, an even [s]
    on a tie. *)
Definition shortest_at (x : float) (num den n : Z) (k : Z)
  : option (Z * Z) :=
  let '(a, b) := if n <=? k then (num * 10 ^ (k - n), den)
                 else (num, den * 10 ^ (n - k)) in
  let lo := a / b in
  let r := a mod b in
  let hi := lo + 1 in
  let ok s := PrimFloat.Leibniz.eqb (to_float false s (n - k)) x in
  let up := if hi =? 10 ^ k then (10 ^ (k - 1), n + 1) else (hi, n) in
  let lo_ok := (10 ^ (k - 1) <=? lo) && ok lo in
  let hi_ok := negb (r =? 0) && ok hi in
  if lo_ok && hi_ok then
    match 2 * r ?= b with
    | Lt => Some (lo, n)
    | Gt => Some up
    | Eq => if Z.even lo then Some (lo, n) else Some up
    end
  else if lo_ok then Some (lo, n)
  else if hi_ok then Some up
  else None.

Fixpoint shortest (fuel : nat) (x : float) (num den n : Z) (k : Z)
  : Z * Z * Z :=
  match fuel with
  | O => (0, k, n)
  | S fuel' =>
      match shortest_at x num den n k with
      | Some (s, n') => (s, k, n')
      | None => shortest fuel' x num den n (k + 1)
      end
  end.

Definition zeros (n : Z) : list ascii := repeat "0"%char (Z.to_nat n).

(** Steps 6 to 10 of Number::toString: the text for digits [s] ([k] of
    them) and decimal point position [n]. *)
Definition layout (s k n : Z) : list ascii :=
  let ds := digits s in
  if (k <=? n) && (n <=? 21) then ds ++ zeros (n - k)
  else if (0 <? n) && (n <=? 21) then
    firstn (Z.to_nat n) ds ++ "."%char :: skipn (Z.to_nat n) ds
  else if (-6 <? n) && (n <=? 0) then
    "0"%char :: "."%char :: zeros (- n) ++ ds
  else
    let e := n - 1 in
    let ex := "e"%char :: (if e <? 0 then "-"%char else "+"%char)
                :: digits (Z.abs e) in
    match ds with
    | d :: (_ :: _) as tl => d :: "."%char :: tl ++ ex
    | _ => ds ++ ex
    end.

(** [x.toString()] for a number [x]. *)
Definition to_string (x : float) : string :=
  match Prim2SF x with
  | S754_nan => "NaN"
  | S754_zero _ => "0"
  | S754_infinity s => if s then "-Infinity" else "Infinity"
  | S754_finite sg m e =>
      let '(num, den) := fraction m e in
      let '(s, k, n) :=
        shortest 17 (abs x) num den (magnitude num den) 1 in
      string_of_list_ascii
        ((if sg then ["-"%char] else []) ++ layout s k n)
  end.

(** *** Number.prototype.toFixed *)

(** The integer [n] for which [n / 100 - num / den] is closest to zero,
    the larger one of two. *)
Definition round_hundredths (num den : Z) : Z :=
  (200 * num + den) / (2 * den).

(** [x.toFixed(2)] *)
Definition toFixed2 (x : float) : string :=
  match Prim2SF x with
  | S754_finite sg m e =>
      if (1e21 <=? abs x)%float then to_string x
      else
        let '(num, den) := fraction m e in
        let ds := digits (round_hundredths num den) in
        let ds := zeros (3 - Z.of_nat (length ds)) ++ ds in
        let k := (length ds - 2)%nat in
        string_of_list_ascii
          ((if sg then ["-"%char] else [])
             ++ firstn k ds ++ "."%char :: skipn k ds)
  | S754_zero _ => "0.00"
  | _ => to_string x
  end.

End Num.

(** ToNumber: [Number(v)]. *)
Definition Number (v : value) : float :=
  match v with
  | VUndefined => nan
  | VNull => zero
  | VBool b => if b then one else zero
  | VNum x => x
  | VStr s => Num.of_string s
  end.

(** [v.toString()]: a TypeError ([None]) on [undefined] and [null]. *)
Definition toString (v : value) : option string :=
  match v with
  | VUndefined | VNull => None
  | VBool b => Some (if b then "true" else "false")
  | VNum x => Some (Num.to_string x)
  | VStr s => Some s
  end.

(** [Number(x.toFixed(2))], the rounding the aggregator applies. *)
Definition round2 (x : float) : float := Number (VStr (Num.toFixed2 x)).

(** ** Arrays, Map, Set and sort *)

(** [arr.find(p)]: [undefined] when no element passes. *)
Definition js_find (p : value -> bool) (arr : list value) : value :=
  match List.find p arr with
  | Some v => v
  | None => VUndefined
  end.

(** [new Set(arr)]: the distinct elements (SameValueZero) in insertion
    order. *)
Definition set_has (s : list value) (v : value) : bool :=
  existsb (fun v' => same_value_zero v' v) s.

Definition set_add (s : list value) (v : value) : list value :=
  if set_has s v then s else s ++ [v].

Definition new_Set (arr : list value) : list value :=
  fold_left set_add arr [].

(** A [Map] with number values: its entries in insertion order. *)
Definition js_map := list (value * float).

Fixpoint map_get (m : js_map) (k : value) : option float :=
  match m with
  | (k', x) :: m' => if same_value_zero k' k then Some x else map_get m' k
  | [] => None
  end.

Fixpoint map_set (m : js_map) (k : value) (x : float) : js_map :=
  match m with
  | (k', y) :: m' =>
      if same_value_zero k' k then (k', x) :: m'
      else (k', y) :: map_set m' k x
  | [] => [(k, x)]
  end.

(** [arr.sort(cmp)], a stable sort (ECMA-262 since 2019).  [after a b]
    says that [cmp(a, b) > 0], that is, [a] is to come after [b]; a [NaN]
    from [cmp] counts as [+0].  The model sorts by stable insertion; any
    stable sort yields the same array when [cmp] is a consistent
    comparator ([stable_sorted_unique] below).  When it is not, as with a
    NaN among the numbers compared, ECMA-262 leaves the order to the
    implementation: of the result of the model only what holds of every
    permutation of the array is then a fact about the program. *)
Section Sort.
Context {A : Type} (after : A -> A -> bool).

Fixpoint sort_insert (a : A) (l : list A) : list A :=
  match l with
  | b :: l' => if after a b then b :: sort_insert a l' else a :: l
  | [] => [a]
  end.

Definition js_sort (l : list A) : list A := fold_right sort_insert [] l.
End Sort.

(** ** The dashboard *)

(** A row of [XLSX.utils.sheet_to_json]: column name to cell value. *)
Abbreviation RawRow := (gmap string value).

(** [d[k]] *)
Definition prop (d : RawRow) (k : string) : value :=
  match d !! k with
  | Some v => v
  | None => VUndefined
  end.

(** The record built at line 54. *)
Record Transaction := {
  sales : float;
  Monthsort : float;
  coffee_name : value;
  transaction_id : value;
  Time_of_Day : value
}.

(** A normalised record seen as an object again. *)
Definition as_row (t : Transaction) : RawRow :=
  <["sales" := VNum (sales t)]>
  (<["Monthsort" := VNum (Monthsort t)]>
  (<["coffee_name" := coffee_name t]>
  (<["transaction_id" := transaction_id t]>
  (<["Time_of_Day" := Time_of_Day t]> ∅)))).

(** Line 45: [keys.map(k => d[k]).find(v => v !== undefined && v !== null)
    || ''] *)
Definition get (d : RawRow) (keys : list string) : value :=
  js_or
    (js_find (fun v => negb (strict_eq v VUndefined)
                       && negb (strict_eq v VNull))
       (map (prop d) keys))
    (VStr "").

(** [s.replace(/[$,\\s]/g, '')]: the class of the regular expression
    literal holds the four characters [$], [,], [\] and [s]. *)
Definition in_class (c : ascii) : bool :=
  Ascii.eqb c "$" || Ascii.eqb c "," || Ascii.eqb c "\" || Ascii.eqb c "s".

Fixpoint replace_class (s : string) : string :=
  match s with
  | String c s' =>
      if in_class c then replace_class s' else String c (replace_class s')
  | EmptyString => EmptyString
  end.

Definition sales_keys := ["Sales_amount"; "sales_amount"; "Sales Amount"].
Definition month_keys := ["Monthsort"; "Month Sort"; "monthsort"; "Month"].
Definition name_keys := ["coffee_name"; "Coffee Name"; "coffee"].
Definition id_keys :=
  ["transaction_id"; "Transaction ID"; "transactio_id"; "id"].
Definition time_keys := ["Time_of_Day"; "Time of Day"; "time_of_day"; "Time"].

(** Lines 44-55, the callback of [raw.map]; [None] is a thrown
    TypeError. *)
Definition normalize (d : RawRow) : option Transaction :=
  let salesRaw := get d sales_keys in
  match toString salesRaw with
  | None => None
  | Some str =>
      let sales := num_or (Num.parseFloat (replace_class str)) zero in
      let Monthsort := Number (get d month_keys) in
      let coffee_name := get d name_keys in
      let transaction_id := get d id_keys in
      let Time_of_Day := get d time_keys in
      Some {| sales := sales; Monthsort := Monthsort;
              coffee_name := coffee_name; transaction_id := transaction_id;
              Time_of_Day := Time_of_Day |}
  end.

(** Lines 43-56: [raw.map(...)], which throws when a callback does. *)
Fixpoint data (raw : list RawRow) : option (list Transaction) :=
  match raw with
  | d :: raw' =>
      match normalize d with
      | Some t =>
          match data raw' with
          | Some ts => Some (t :: ts)
          | None => None
          end
      | None => None
      end
  | [] => Some []
  end.

(** String comparison [a < b] by code units. *)
Fixpoint str_lt (a b : string) : bool :=
  match a, b with
  | _, EmptyString => false
  | EmptyString, String _ _ => true
  | String x a', String y b' =>
      let nx := N_of_ascii x in
      let ny := N_of_ascii y in
      if (nx <? ny)%N then true
      else if (ny <? nx)%N then false
      else str_lt a' b'
  end.

(** ToString of an array element, as the default sort order takes it. *)
Definition to_String (v : value) : string :=
  match toString v with
  | Some s => s
  | None => match v with VNull => "null" | _ => "undefined" end
  end.

(** [arr.sort()]: [undefined] last, the rest by their strings. *)
Definition default_after (a b : value) : bool :=
  match a, b with
  | VUndefined, VUndefined => false
  | VUndefined, _ => true
  | _, VUndefined => false
  | _, _ => str_lt (to_String b) (to_String a)
  end.

(** Lines 59-62. *)
Definition coffeeOptions (data : list Transaction) : list value :=
  let set := new_Set (List.filter truthy (map coffee_name data)) in
  VStr "All" :: js_sort default_after set.

(** Lines 64-70. *)
Definition filtered (data : list Transaction) (coffee : string)
    (minMonth maxMonth : float) : list Transaction :=
  List.filter
    (fun d =>
       let coffeeOk :=
         String.eqb coffee "All" || strict_eq (coffee_name d) (VStr coffee) in
       let monthOk :=
         (minMonth <=? Monthsort d)%float && (Monthsort d <=? maxMonth)%float in
       coffeeOk && monthOk)
    data.

(** [rows.reduce((s, d) => s + d.sales, 0)] *)
Definition sum_sales (rows : list Transaction) : float :=
  fold_left (fun s d => (s + sales d)%float) rows zero.

(** [new Set(rows.map(d => d.transaction_id)).size] *)
Definition count_ids (rows : list Transaction) : nat :=
  length (new_Set (map transaction_id rows)).

(** [t ? s / t : 0] *)
Definition guarded_avg (s : float) (t : nat) : float :=
  match t with
  | O => zero
  | S _ => (s / Dec.of_nat t)%float
  end.

(** Lines 73-75. *)
Definition totalSales (filtered : list Transaction) : float :=
  sum_sales filtered.

Definition totalTransactions (filtered : list Transaction) : nat :=
  count_ids filtered.

Definition avgValue (filtered : list Transaction) : float :=
  guarded_avg (totalSales filtered) (totalTransactions filtered).

(** Line 78. *)
Definition timeSlots : list string := ["Morning"; "Afternoon"; "Night"].

(** [filtered.filter(d => d.Time_of_Day === slot)] *)
Definition in_slot (slot : string) (rows : list Transaction)
  : list Transaction :=
  List.filter (fun d => strict_eq (Time_of_Day d) (VStr slot)) rows.

(** An entry [{ Time_of_Day, Sales }] of [salesByTime]; its first field
    is called [slot_name] here, [Time_of_Day] being the field of
    [Transaction]. *)
Record SlotSales := { slot_name : string; Sales : float }.

(** Lines 79-84. *)
Definition salesByTime (filtered : list Transaction) : list SlotSales :=
  map (fun slot =>
         let slotSales := sum_sales (in_slot slot filtered) in
         {| slot_name := slot; Sales := round2 slotSales |})
    timeSlots.

(** Line 87: [(a, b) => b.Sales - a.Sales] is positive. *)
Definition after_sales (a b : SlotSales) : bool :=
  (zero <? Sales b - Sales a)%float.

(** Lines 86-89, on any array of entries. *)
Definition peak_of (entries : list SlotSales) : value :=
  let sorted := js_sort after_sales entries in
  match sorted with
  | e :: _ => js_or (VStr (slot_name e)) (VStr "-")
  | [] => VStr "-"
  end.

Definition peakTime (filtered : list Transaction) : value :=
  peak_of (salesByTime filtered).

(** An entry [{ name, total }] of a ranking. *)
Record Ranked := { name : value; total : float }.

(** Line 95: [map.set(r.coffee_name, (map.get(r.coffee_name) || 0) +
    r.sales)] *)
Definition group_step (m : js_map) (r : Transaction) : js_map :=
  let old := match map_get m (coffee_name r) with
             | Some x => num_or x zero
             | None => zero
             end in
  map_set m (coffee_name r) (old + sales r)%float.

(** Lines 93-96: the [Map] of summed sales per coffee name. *)
Definition group_sales (rows : list Transaction) : js_map :=
  fold_left group_step rows [].

(** Line 99: [(a, b) => b.total - a.total] is positive. *)
Definition after_total (a b : Ranked) : bool :=
  (zero <? total b - total a)%float.

(** Line 98: [([name, total]) => ({ name, total: Number(total.toFixed(2)) })]
    over [Array.from(map.entries())]. *)
Definition rounded_entries (m : js_map) : list Ranked :=
  map (fun '(name, total) => {| name := name; total := round2 total |}) m.

(** Lines 97-99: the entries, rounded, then sorted. *)
Definition ranking (rows : list Transaction) : list Ranked :=
  js_sort after_total (rounded_entries (group_sales rows)).

(** Lines 92-101. *)
Definition top3Overall (filtered : list Transaction) : list Ranked :=
  firstn 3 (ranking filtered).

(** Lines 104-118: [top3BySlot[slot]]. *)
Definition top3BySlot (filtered : list Transaction) (slot : string)
  : list Ranked :=
  firstn 3 (ranking (in_slot slot filtered)).

(** Lines 215-220: sales, transactions and average of one slot. *)
Definition slotMetrics (filtered : list Transaction) (slot : string)
  : float * nat * float :=
  let slotRows := in_slot slot filtered in
  let s := sum_sales slotRows in
  let t := count_ids slotRows in
  let avg := guarded_avg s t in
  (s, t, avg).

(** ** The filter controls *)

(** [Math.min(a, b)] and [Math.max(a, b)]: NaN if either is NaN, and [-0]
    below [+0]. *)
Definition is_neg_zero (x : float) : bool := is_zero x && get_sign x.

Definition is_pos_zero (x : float) : bool := is_zero x && negb (get_sign x).

Definition Math_min (a b : float) : float :=
  if is_nan a || is_nan b then nan
  else if (b <? a)%float then b
  else if is_neg_zero b && is_pos_zero a then b
  else a.

Definition Math_max (a b : float) : float :=
  if is_nan a || is_nan b then nan
  else if (a <? b)%float then b
  else if is_pos_zero b && is_neg_zero a then b
  else a.

(** Lines 25-27: the state of the three controls. *)
Record Controls := {
  coffee : string;
  minMonth : float;
  maxMonth : float
}.

(** The state of the first render. *)
Definition first_render : Controls :=
  {| coffee := "All"; minMonth := 1; maxMonth := 12 |}.

(** A change event of a control, with its [e.target.value]. *)
Inductive control_change :=
| ChangeCoffee (value : string)
| ChangeStart (value : string)
| ChangeEnd (value : string).

(** Lines 141, 156 and 162: the three [onChange] handlers. *)
Definition onChange (st : Controls) (e : control_change) : Controls :=
  match e with
  | ChangeCoffee value =>
      {| coffee := value; minMonth := minMonth st; maxMonth := maxMonth st |}
  | ChangeStart value =>
      {| coffee := coffee st;
         minMonth := Math_min (Number (VStr value)) (maxMonth st);
         maxMonth := maxMonth st |}
  | ChangeEnd value =>
      {| coffee := coffee st;
         minMonth := minMonth st;
         maxMonth := Math_max (Number (VStr value)) (minMonth st) |}
  end.

(** The state after a sequence of events, each handled in the render
    that follows the one before. *)
Definition after_changes (es : list control_change) : Controls :=
  fold_left onChange es first_render.

(** Lines 64-70 in a state of the controls. *)
Definition shown (st : Controls) (data : list Transaction) : list Transaction :=
  filtered data (coffee st) (minMonth st) (maxMonth st).

(** A value a range input from 1 to 12 can report. *)
Definition month_value (value : string) : bool :=
  (1 <=? Number (VStr value))%float && (Number (VStr value) <=? 12)%float.

Definition slider_change (e : control_change) : bool :=
  match e with
  | ChangeCoffee _ => true
  | ChangeStart value | ChangeEnd value => month_value value
  end.

(** Both bounds are months and the start is not after the end. *)
Definition months_ordered (st : Controls) : Prop :=
  (1 <=? minMonth st)%float = true /\
  (minMonth st <=? maxMonth st)%float = true /\
  (maxMonth st <=? 12)%float = true.

(** ** The money tiles *)

Section Money.

(** [n.toLocaleString(undefined, { maximumFractionDigits: 2 })], which the
    host's locale decides. *)
Variable toLocaleString : float -> string.

(** [isFinite(n)] on a number. *)
Definition isFinite (n : float) : bool := negb (is_nan n || is_infinity n).

(** Lines 18-21. *)
Definition formatMoney (n : float) : string :=
  if negb (isFinite n) then "$0"
  else ("$" ++ toLocaleString n)%string.

End Money.

(** ** Reference definitions, in the words of the specification *)

(** A cell that is neither [undefined] nor [null]. *)
Definition present (v : value) : bool :=
  negb (strict_eq v VUndefined) && negb (strict_eq v VNull).

(** The value of the first alias whose cell is present. *)
Fixpoint first_present (d : RawRow) (keys : list string) : option value :=
  match keys with
  | k :: keys' =>
      match d !! k with
      | Some v => if present v then Some v else first_present d keys'
      | None => first_present d keys'
      end
  | [] => None
  end.

(** What a second normalisation pass makes of a normalised record. *)
Definition second_pass (t : Transaction) : Transaction :=
  {| sales := zero;
     Monthsort := num_or (Monthsort t) zero;
     coffee_name := coffee_name t;
     transaction_id := transaction_id t;
     Time_of_Day := Time_of_Day t |}.

(** A number with no fractional part. *)
Definition is_integer (x : float) : bool :=
  match Prim2SF x with
  | S754_zero _ => true
  | S754_finite _ m (Zneg k) => (Zpos m mod 2 ^ Zpos k =? 0)
  | S754_finite _ _ _ => true
  | _ => false
  end.

(** The running sum line 95 keeps for one coffee name. *)
Definition running (acc : option float) (r : Transaction) : option float :=
  Some (match acc with
        | Some x => num_or x zero
        | None => zero
        end + sales r)%float.

(** The rows grouped under the name [k]. *)
Definition named (k : value) (rows : list Transaction) : list Transaction :=
  List.filter (fun r => same_value_zero (coffee_name r) k) rows.

(** The ranking in the order the specification words it: sort the summed
    groups, take three, then round what is reported. *)
Definition after_sum (a b : value * float) : bool :=
  (zero <? snd b - snd a)%float.

Definition top3_sorted_then_rounded (rows : list Transaction) : list Ranked :=
  rounded_entries (firstn 3 (js_sort after_sum (group_sales rows))).

(** A row whose time of day is one of the three slots. *)
Definition recognised (t : Transaction) : bool :=
  existsb (fun slot => strict_eq (Time_of_Day t) (VStr slot)) timeSlots.

(** A row labelled with the slot: its time of day is that text. *)
Definition labelled (slot : string) (t : Transaction) : bool :=
  match Time_of_Day t with
  | VStr s => String.eqb s slot
  | _ => false
  end.

(** The sum of [sales] over the rows labelled with the slot, each added
    to [acc] in the order of the rows. *)
Fixpoint slot_sum_from (acc : float) (slot : string)
    (rows : list Transaction) : float :=
  match rows with
  | r :: rows' =>
      slot_sum_from (if labelled slot r then (acc + sales r)%float else acc)
        slot rows'
  | [] => acc
  end.

Definition slot_sum (slot : string) (rows : list Transaction) : float :=
  slot_sum_from zero slot rows.

(** The rows labelled with the slot. *)
Definition labelled_rows (slot : string) (rows : list Transaction)
  : list Transaction :=
  List.filter (labelled slot) rows.

(** The sum of the entries of [salesByTime]. *)
Definition slot_total (entries : list SlotSales) : float :=
  fold_left (fun s e => (s + Sales e)%float) entries zero.

(** A record with string fields. *)
Definition sale (amount month : float) (coffee id time : string)
  : Transaction :=
  {| sales := amount; Monthsort := month; coffee_name := VStr coffee;
     transaction_id := VStr id; Time_of_Day := VStr time |}.

(** A one-row sheet. *)
Definition row (cells : list (string * value)) : RawRow := list_to_map cells.

(** ** Auxiliary notions *)

(** A key whose lexicographic order is the order of the non-NaN values. *)
Definition SFkey (x : spec_float) : Z * Z * Z :=
  match x with
  | S754_infinity true => (-2, 0, 0)
  | S754_finite true m e => (-1, - e, - Zpos m)
  | S754_finite false m e => (1, e, Zpos m)
  | S754_infinity false => (2, 0, 0)
  | _ => (0, 0, 0)
  end.

Definition key_lt (a b : Z * Z * Z) : Prop :=
  let '(c1, e1, m1) := a in
  let '(c2, e2, m2) := b in
  c1 < c2 \/ (c1 = c2 /\ (e1 < e2 \/ (e1 = e2 /\ m1 < m2))).

Definition fkey (x : float) : Z * Z * Z := SFkey (Prim2SF x).

(** A value [get] can return: truthy, or the empty string. *)
Definition settled (v : value) : Prop := truthy v = true \/ v = VStr "".

(** The fields [get] fills are settled in every normalised record. *)
Definition normal (t : Transaction) : Prop :=
  settled (coffee_name t) /\ settled (transaction_id t) /\
  settled (Time_of_Day t).

(** No two keys of a [Map] are the same value. *)
Fixpoint distinct_keys (m : js_map) : Prop :=
  match m with
  | (k, _) :: m' => map_get m' k = None /\ distinct_keys m'
  | [] => True
  end.

(** Two numbers that are the same value, [+0] and [-0] being the same. *)
Definition feq (x y : float) : bool :=
  (x =? y)%float || (is_nan x && is_nan y).

(** What can follow the integer digits of a printed number. *)
Inductive exponent_text : list ascii -> Prop :=
| no_exponent : exponent_text []
| some_exponent sg es :
    sg = "+"%char \/ sg = "-"%char -> es <> [] ->
    Forall (fun c => Dec.is_digit c = true) es ->
    exponent_text ("e"%char :: sg :: es).

(** What can follow them: an exponent, or a fraction and an exponent. *)
Inductive tail_text : list ascii -> Prop :=
| tail_exponent ex : exponent_text ex -> tail_text ex
| tail_fraction fs ex :
    Forall (fun c => Dec.is_digit c = true) fs -> exponent_text ex ->
    tail_text ("."%char :: fs ++ ex).

(** The column names the normaliser reads. *)
Definition aliases : list string :=
  sales_keys ++ month_keys ++ name_keys ++ id_keys ++ time_keys.

(** No two elements are the same value (SameValueZero). *)
Definition apart (s : list value) : Prop :=
  forall a b, In a s -> In b s -> same_value_zero a b = true -> a = b.

(** ** Sample data *)

Definition latte_sheet : list RawRow :=
  [row [("Sales_amount", VStr "$5"); ("Monthsort", VNum 1);
        ("coffee_name", VStr "Latte"); ("transaction_id", VStr "t1");
        ("Time_of_Day", VStr "Morning")]].

Definition latte_records : list Transaction :=
  [{| sales := 5; Monthsort := 1; coffee_name := VStr "Latte";
      transaction_id := VStr "t1"; Time_of_Day := VStr "Morning" |}].

Definition infinite_sheet : list RawRow :=
  [row [("Sales_amount", VStr "Infinity"); ("Monthsort", VNum 1);
        ("transaction_id", VStr "t1")];
   row [("Sales_amount", VStr "-Infinity"); ("Monthsort", VNum 1);
        ("transaction_id", VStr "t2")]].

Definition menu : list Transaction :=
  [sale 5 1 "Latte" "t1" "Morning";
   sale 10 6 "Espresso" "t2" "Night";
   sale 3 1 "Latte" "t3" "Morning";
   sale 8 1 "Mocha" "t4" "Night";
   sale 2 1 "Cappuccino" "t5" "Afternoon"].

Definition unnamed_sales : list Transaction :=
  [sale 5 1 "Latte" "t1" "Morning";
   sale 9 1 "" "t2" "Morning";
   sale 10 6 "Espresso" "t3" "Night";
   sale 8 1 "Mocha" "t4" "Night";
   sale 2 1 "Cappuccino" "t5" "Afternoon"].

(** Four names whose sums differ by less than a cent; the rows without a
    name have the greatest. *)
Definition close_sales : list Transaction :=
  [sale 1 1 "A" "t1" "Morning";
   sale 1.0009765625 1 "B" "t2" "Morning";
   sale 1.001953125 1 "C" "t3" "Morning";
   sale 1.0029296875 1 "" "t4" "Morning"].

(** * Properties *)

(** ** Binary64 facts *)

Lemma digits2_size p : digits2_pos p = Pos.size p.
Proof. induction p; simpl; now rewrite ?IHp. Qed.

Lemma digits2_bounds p :
  2 ^ (Zpos (digits2_pos p) - 1) <= Zpos p < 2 ^ Zpos (digits2_pos p).
Proof.
  rewrite digits2_size. split.
  - assert (H := Pos.size_le p).
    assert (E : 2 ^ Zpos (Pos.size p) = 2 * 2 ^ (Zpos (Pos.size p) - 1)).
    { rewrite <- Z.pow_succ_r by lia. f_equal. lia. }
    apply Pos2Z.pos_le_pos in H. rewrite Pos2Z.inj_pow in H.
    change (Zpos p~0) with (2 * Zpos p) in H. lia.
  - assert (H := Pos.size_gt p).
    apply Pos2Z.pos_lt_pos in H. now rewrite Pos2Z.inj_pow in H.
Qed.

Lemma canonical_bounds m e :
  canonical_mantissa prec emax m e = true ->
  emin <= e /\ Zpos (digits2_pos m) <= prec /\
  (emin < e -> Zpos (digits2_pos m) = prec).
Proof.
  unfold canonical_mantissa, fexp, SpecFloat.emin, prec, emax.
  intros H. apply Z.eqb_eq in H. lia.
Qed.

Lemma iter_xO m d : Zpos (Pos.iter xO m d) = Zpos m * 2 ^ Zpos d.
Proof.
  change (Pos.iter xO m d) with (shift_pos d m).
  rewrite shift_pos_correct. rewrite Zpower_pos_nat, Zpower_nat_Z.
  rewrite positive_nat_Z. lia.
Qed.

Lemma shl_align_fst m e e' :
  e' <= e -> Zpos (fst (shl_align m e e')) = Zpos m * 2 ^ (e - e').
Proof.
  intros H. unfold shl_align.
  destruct (e' - e) as [ | d | d] eqn:E; simpl.
  - replace (e - e') with 0 by lia. lia.
  - lia.
  - rewrite iter_xO. f_equal. f_equal. lia.
Qed.

Lemma shl_align_snd m e e' :
  snd (shl_align m e e') = Z.min e e'.
Proof.
  unfold shl_align. destruct (e' - e) eqn:E; simpl; lia.
Qed.


Lemma iter_pos_nat {A} (f : A -> A) p x :
  SpecFloat.iter_pos f p x = Nat.iter (Pos.to_nat p) f x.
Proof.
  revert x. induction p as [p IH | p IH | ]; intros x.
  - rewrite Pos2Nat.inj_xI. cbn [SpecFloat.iter_pos]. rewrite !IH.
    replace (S (2 * Pos.to_nat p))%nat
      with (Pos.to_nat p + Pos.to_nat p + 1)%nat by lia.
    now rewrite !Nat.iter_add.
  - rewrite Pos2Nat.inj_xO. cbn [SpecFloat.iter_pos]. rewrite !IH.
    replace (2 * Pos.to_nat p)%nat
      with (Pos.to_nat p + Pos.to_nat p)%nat by lia.
    now rewrite Nat.iter_add.
  - reflexivity.
Qed.

Lemma shr_1_m r : 0 <= shr_m r -> shr_m (shr_1 r) = shr_m r / 2.
Proof.
  destruct r as [m r s]. intros H.
  destruct m as [ | [p | p | ] | p]; try reflexivity; cbn [shr_1 shr_m] in *.
  - apply Z.div_unique with 1; lia.
  - apply Z.div_unique with 0; lia.
  - lia.
Qed.

Lemma iter_shr_1_m n r :
  0 <= shr_m r -> shr_m (Nat.iter n shr_1 r) = shr_m r / 2 ^ Z.of_nat n.
Proof.
  intros H. induction n as [ | n IH].
  - simpl. now rewrite Z.div_1_r.
  - rewrite Nat2Z.inj_succ, Z.pow_succ_r by lia. simpl.
    rewrite shr_1_m, IH.
    + rewrite Z.div_div by lia. f_equal. lia.
    + rewrite IH. apply Z.div_pos; lia.
Qed.

Lemma shr_record_of_loc_m m l : shr_m (shr_record_of_loc m l) = m.
Proof. now destruct l as [ | []]. Qed.

(** Rounding a positive mantissa whose exponent is no less than [emin]
    leaves it positive: nothing underflows to zero. *)
Lemma shr_fexp_pos m e l :
  0 < m -> emin <= e ->
  0 < shr_m (fst (shr_fexp prec emax m e l)) /\
  emin <= snd (shr_fexp prec emax m e l).
Proof.
  intros Hm He. unfold shr_fexp, shr.
  destruct (fexp prec emax (Zdigits2 m + e) - e) as [ | k | k] eqn:E; simpl;
    rewrite ?shr_record_of_loc_m; try (split; lia).
  split; [ | lia].
  rewrite iter_pos_nat, iter_shr_1_m, shr_record_of_loc_m, positive_nat_Z
    by (rewrite shr_record_of_loc_m; lia).
  destruct m as [ | p | p]; try lia. simpl in E.
  assert (B := digits2_bounds p).
  assert (Hk : Zpos k <= Zpos (digits2_pos p) - 1).
  { revert E He. unfold fexp, SpecFloat.emin, prec, emax. lia. }
  assert (2 ^ Zpos k <= 2 ^ (Zpos (digits2_pos p) - 1))
    by (apply Z.pow_le_mono_r; lia).
  apply Z.div_str_pos. lia.
Qed.

Lemma round_nearest_even_ge m l : m <= round_nearest_even m l.
Proof.
  destruct l as [ | []]; simpl; try lia. destruct (Z.even m); lia.
Qed.

Lemma binary_round_aux_pos m e l :
  0 < m -> emin <= e ->
  SFltb (S754_zero false) (binary_round_aux prec emax false m e l) = true.
Proof.
  intros Hm He. unfold binary_round_aux.
  destruct (shr_fexp_pos m e l Hm He) as [H1 H2].
  destruct (shr_fexp prec emax m e l) as [mrs' e']. simpl in H1, H2.
  assert (H3 := round_nearest_even_ge (shr_m mrs') (loc_of_shr_record mrs')).
  destruct (shr_fexp_pos (round_nearest_even (shr_m mrs')
              (loc_of_shr_record mrs')) e' loc_Exact) as [H4 _]; [lia | lia | ].
  destruct (shr_fexp prec emax _ e' loc_Exact) as [mrs'' e''].
  simpl in H4. destruct (shr_m mrs''); try lia.
  now destruct (e'' <=? emax - prec).
Qed.

Lemma binary_round_pos m e :
  emin <= e ->
  SFltb (S754_zero false) (binary_round prec emax false m e) = true.
Proof.
  intros He. unfold binary_round.
  assert (H := shl_align_snd m e (fexp prec emax (Zpos (digits2_pos m) + e))).
  destruct (shl_align m e _) as [mz ez]. simpl in H.
  apply binary_round_aux_pos; [lia | ].
  revert H He. unfold fexp, SpecFloat.emin, prec, emax. lia.
Qed.

Lemma binary_round_aux_neg m e l :
  SFltb (S754_zero false) (binary_round_aux prec emax true m e l) = false.
Proof.
  unfold binary_round_aux.
  destruct (shr_fexp prec emax m e l) as [mrs' e'].
  destruct (shr_fexp prec emax _ e' loc_Exact) as [mrs'' e''].
  destruct (shr_m mrs''); try reflexivity.
  now destruct (e'' <=? emax - prec).
Qed.

(** The sign of a normalised integer is the sign of the integer. *)
Lemma binary_normalize_pos z e :
  emin <= e ->
  SFltb (S754_zero false) (binary_normalize prec emax z e false) = (0 <? z).
Proof.
  intros He. destruct z as [ | p | p]; simpl.
  - reflexivity.
  - now apply binary_round_pos.
  - unfold binary_round. destruct (shl_align p e _).
    apply binary_round_aux_neg.
Qed.


Lemma canonical_lt ma ea mb eb :
  canonical_mantissa prec emax ma ea = true ->
  canonical_mantissa prec emax mb eb = true ->
  ea < eb -> Zpos ma < Zpos mb * 2 ^ (eb - ea).
Proof.
  intros Ha Hb H.
  apply canonical_bounds in Ha as (Ha1 & Ha2 & _).
  apply canonical_bounds in Hb as (_ & _ & Hb3).
  specialize (Hb3 ltac:(lia)).
  assert (Ba := digits2_bounds ma). assert (Bb := digits2_bounds mb).
  rewrite Hb3 in Bb.
  assert (2 ^ Zpos (digits2_pos ma) <= 2 ^ prec)
    by (apply Z.pow_le_mono_r; lia).
  assert (2 ^ 1 <= 2 ^ (eb - ea)) by (apply Z.pow_le_mono_r; lia).
  assert (E : 2 ^ prec = 2 ^ (prec - 1) * 2 ^ 1) by reflexivity.
  assert (2 ^ (prec - 1) * 2 ^ 1 <= Zpos mb * 2 ^ (eb - ea))
    by (apply Z.mul_le_mono_nonneg; lia).
  lia.
Qed.

Lemma valid_finite s m e :
  valid_binary (S754_finite s m e) = true ->
  canonical_mantissa prec emax m e = true /\ emin <= e.
Proof.
  simpl. unfold bounded. intros H. apply andb_prop in H as [H _].
  split; [exact H | now apply canonical_bounds in H].
Qed.

(** On binary64 values, [b - a] is positive exactly when [a < b]. *)
Lemma SFsub_pos A B :
  valid_binary A = true -> valid_binary B = true ->
  SFltb (S754_zero false) (SFsub prec emax B A) = SFltb A B.
Proof.
  destruct A as [sa | sa | | sa ma ea]; destruct B as [sb | sb | | sb mb eb];
    intros HA HB; try reflexivity;
    try (destruct sa; try destruct sb; reflexivity);
    try (destruct sb; reflexivity).
  apply valid_finite in HA as [Ca Ea]. apply valid_finite in HB as [Cb Eb].
  unfold SFsub. rewrite binary_normalize_pos by lia.
  rewrite !shl_align_fst by lia.
  unfold SFltb, SFcompare.
  assert (Pa : 0 < Zpos ma * 2 ^ (ea - Z.min eb ea))
    by (apply Z.mul_pos_pos; [lia | apply Z.pow_pos_nonneg; lia]).
  assert (Pb : 0 < Zpos mb * 2 ^ (eb - Z.min eb ea))
    by (apply Z.mul_pos_pos; [lia | apply Z.pow_pos_nonneg; lia]).
  assert (Hc : Pos.compare_cont Eq ma mb = (Zpos ma ?= Zpos mb))
    by reflexivity.
  rewrite Hc.
  destruct (Z.compare_spec ea eb) as [E | L | G].
  - subst eb. rewrite Z.min_id, Z.sub_diag, !Z.mul_1_r in *.
    destruct (Z.compare_spec (Zpos ma) (Zpos mb));
      destruct sa, sb; simpl; lia.
  - assert (K := canonical_lt _ _ _ _ Ca Cb L).
    rewrite Z.min_r in * by lia. rewrite Z.sub_diag, Z.mul_1_r in *.
    destruct sa, sb; simpl; lia.
  - assert (K := canonical_lt _ _ _ _ Cb Ca G).
    rewrite Z.min_l in * by lia. rewrite Z.sub_diag, Z.mul_1_r in *.
    destruct sa, sb; simpl; lia.
Qed.

(** Line 87 and line 99: the comparator [b - a] is positive exactly when
    [a < b]. *)
Lemma sub_pos a b : (zero <? b - a)%float = (a <? b)%float.
Proof.
  rewrite !FloatAxioms.ltb_spec, FloatAxioms.sub_spec.
  change (Prim2SF zero) with (S754_zero false).
  apply SFsub_pos; apply Prim2SF_valid.
Qed.


Lemma SFcompare_refl x : x <> S754_nan -> SFcompare x x = Some Eq.
Proof.
  destruct x as [[] | [] | | [] m e]; intros H; try reflexivity;
    try (now contradiction H); simpl;
    now rewrite Z.compare_refl, Pos.compare_cont_refl.
Qed.

Lemma is_nan_Prim2SF x : is_nan x = true <-> Prim2SF x = S754_nan.
Proof.
  unfold is_nan. rewrite FloatAxioms.eqb_spec. unfold SFeqb. split.
  - intros H. destruct (Prim2SF x) eqn:E; try reflexivity;
      rewrite SFcompare_refl in H by discriminate; discriminate H.
  - intros ->. reflexivity.
Qed.

Lemma leb_nan_r x y : is_nan x = true -> (y <=? x)%float = false.
Proof.
  intros H. apply is_nan_Prim2SF in H. rewrite FloatAxioms.leb_spec, H.
  unfold SFleb. now destruct (Prim2SF y) as [[] | [] | | [] ? ?].
Qed.

Lemma leb_nan_l x y : is_nan x = true -> (x <=? y)%float = false.
Proof.
  intros H. apply is_nan_Prim2SF in H. rewrite FloatAxioms.leb_spec, H. reflexivity.
Qed.


(** *** The order of binary64 values *)

Lemma SFcompare_key x y :
  x <> S754_nan -> y <> S754_nan ->
  exists c, SFcompare x y = Some c /\
            match c with
            | Lt => key_lt (SFkey x) (SFkey y)
            | Eq => SFkey x = SFkey y
            | Gt => key_lt (SFkey y) (SFkey x)
            end.
Proof.
  intros Hx Hy.
  destruct x as [sx | sx | | sx mx ex]; try now contradiction Hx.
  all: destruct y as [sy | sy | | sy my ey]; try now contradiction Hy.
  all: unfold SFcompare.
  9: assert (Hc : Pos.compare_cont Eq mx my = (Zpos mx ?= Zpos my))
       by reflexivity.
  9: rewrite Hc; destruct (Z.compare_spec ex ey);
       destruct (Z.compare_spec (Zpos mx) (Zpos my)).
  all: destruct sx, sy; eexists; (split; [reflexivity | ]).
  all: cbv [key_lt SFkey CompOpp]; try reflexivity; try lia.
  all: f_equal; try lia; f_equal; lia.
Qed.

Lemma not_nan_Prim2SF x : is_nan x = false -> Prim2SF x <> S754_nan.
Proof.
  intros H E. apply is_nan_Prim2SF in E. congruence.
Qed.

Lemma ltb_nan x y :
  (x <? y)%float = true -> is_nan x = false /\ is_nan y = false.
Proof.
  rewrite FloatAxioms.ltb_spec. unfold SFltb. intros H.
  split; apply not_true_is_false; intros E; apply is_nan_Prim2SF in E;
    rewrite E in H; [discriminate | ].
  now destruct (Prim2SF x) as [[] | [] | | [] ? ?].
Qed.

Lemma ltb_key x y :
  is_nan x = false -> is_nan y = false ->
  ((x <? y)%float = true <-> key_lt (fkey x) (fkey y)).
Proof.
  intros Hx Hy. rewrite FloatAxioms.ltb_spec. unfold SFltb, fkey.
  destruct (SFcompare_key _ _ (not_nan_Prim2SF _ Hx) (not_nan_Prim2SF _ Hy))
    as (c & -> & H).
  destruct (SFkey (Prim2SF x)) as [[c1 e1] m1].
  destruct (SFkey (Prim2SF y)) as [[c2 e2] m2].
  destruct c; simpl in *; split; try discriminate; try tauto;
    try (injection H as -> -> ->); lia.
Qed.

Lemma leb_key x y :
  is_nan x = false -> is_nan y = false ->
  ((x <=? y)%float = true <-> ~ key_lt (fkey y) (fkey x)).
Proof.
  intros Hx Hy. rewrite FloatAxioms.leb_spec. unfold SFleb, fkey.
  destruct (SFcompare_key _ _ (not_nan_Prim2SF _ Hx) (not_nan_Prim2SF _ Hy))
    as (c & -> & H).
  destruct (SFkey (Prim2SF x)) as [[c1 e1] m1].
  destruct (SFkey (Prim2SF y)) as [[c2 e2] m2].
  destruct c; simpl in *; split; try discriminate; try tauto;
    try (injection H as -> -> ->); try lia.
Qed.

Lemma eqb_key x y :
  is_nan x = false -> is_nan y = false ->
  ((x =? y)%float = true <-> fkey x = fkey y).
Proof.
  intros Hx Hy. rewrite FloatAxioms.eqb_spec. unfold SFeqb, fkey.
  destruct (SFcompare_key _ _ (not_nan_Prim2SF _ Hx) (not_nan_Prim2SF _ Hy))
    as (c & -> & H).
  destruct (SFkey (Prim2SF x)) as [[c1 e1] m1].
  destruct (SFkey (Prim2SF y)) as [[c2 e2] m2].
  destruct c; simpl in *; split; try discriminate; try tauto;
    intros [= -> -> ->]; lia.
Qed.

Lemma eqb_nan x y :
  (x =? y)%float = true -> is_nan x = false /\ is_nan y = false.
Proof.
  rewrite FloatAxioms.eqb_spec. unfold SFeqb. intros H.
  split; apply not_true_is_false; intros E; apply is_nan_Prim2SF in E;
    rewrite E in H; [discriminate | ].
  now destruct (Prim2SF x) as [[] | [] | | [] ? ?].
Qed.



(** *** Dividing by a count *)

Lemma digits2_iter_xO p k :
  digits2_pos (Pos.iter xO p k) = (digits2_pos p + k)%positive.
Proof.
  induction k as [ | k IH] using Pos.peano_ind.
  - simpl. lia.
  - rewrite Pos.iter_succ. simpl. rewrite IH. lia.
Qed.

(** A count below 2^53 is a positive binary64 value, exactly. *)
Lemma binary_round_count p :
  Zpos (digits2_pos p) <= prec ->
  exists m e,
    binary_round prec emax false p 0 = S754_finite false m e /\
    valid_binary (S754_finite false m e) = true.
Proof.
  intros Hd. unfold binary_round.
  assert (Ef : fexp prec emax (Zpos (digits2_pos p) + 0)
               = Zpos (digits2_pos p) - prec).
  { unfold fexp, SpecFloat.emin, prec, emax in *. lia. }
  rewrite Ef.
  assert (Hs : exists mz, shl_align p 0 (Zpos (digits2_pos p) - prec)
                          = (mz, Zpos (digits2_pos p) - prec) /\
                          Zpos (digits2_pos mz) = prec).
  { unfold shl_align.
    destruct (Zpos (digits2_pos p) - prec - 0) as [ | k | k] eqn:E.
    - exists p. split; [f_equal | ]; lia.
    - lia.
    - eexists. split; [reflexivity | ]. rewrite digits2_iter_xO. lia. }
  destruct Hs as (mz & -> & Hz).
  assert (Eg : fexp prec emax (Zdigits2 (Zpos mz)
                               + (Zpos (digits2_pos p) - prec))
               - (Zpos (digits2_pos p) - prec) = 0).
  { simpl Zdigits2. unfold fexp, SpecFloat.emin, prec, emax in *. lia. }
  assert (Ei : shr_fexp prec emax (Zpos mz) (Zpos (digits2_pos p) - prec)
                 loc_Exact
               = ({| shr_m := Zpos mz; shr_r := false; shr_s := false |},
                  Zpos (digits2_pos p) - prec))
    by (unfold shr_fexp; now rewrite Eg).
  unfold binary_round_aux. rewrite Ei.
  cbn [shr_m loc_of_shr_record round_nearest_even]. rewrite Ei.
  cbn [shr_m].
  assert (El : (Zpos (digits2_pos p) - prec <=? emax - prec) = true)
    by (apply Z.leb_le; unfold prec, emax in *; lia).
  rewrite El. eexists _, _. split; [reflexivity | ].
  unfold SpecFloat.valid_binary, bounded, canonical_mantissa.
  rewrite El, andb_true_r.
  apply Z.eqb_eq. simpl Zdigits2 in Eg. lia.
Qed.

Lemma of_nat_finite n :
  (0 < n)%nat -> Z.of_nat n < 2 ^ prec ->
  exists m e, Prim2SF (Dec.of_nat n) = S754_finite false m e.
Proof.
  intros Hn Hb. unfold Dec.of_nat, Dec.to_float.
  destruct (Z.of_nat n) as [ | p | p] eqn:E; try lia.
  unfold Dec.round_pos. simpl cond_Zopp.
  replace (Zpos p * 10 ^ 0) with (Zpos p) by lia. simpl binary_normalize.
  assert (Hd : Zpos (digits2_pos p) <= prec).
  { assert (B := digits2_bounds p).
    destruct (Z_le_gt_dec (Zpos (digits2_pos p)) prec) as [L | G]; [exact L | ].
    assert (2 ^ prec <= 2 ^ (Zpos (digits2_pos p) - 1))
      by (apply Z.pow_le_mono_r; lia).
    lia. }
  destruct (binary_round_count p Hd) as (m & e & -> & V).
  exists m, e. now apply Prim2SF_SF2Prim.
Qed.

Lemma shr_fexp_nonneg m e l :
  0 <= m -> 0 <= shr_m (fst (shr_fexp prec emax m e l)).
Proof.
  intros Hm. unfold shr_fexp, shr.
  destruct (fexp prec emax (Zdigits2 m + e) - e) as [ | k | k]; simpl;
    rewrite ?shr_record_of_loc_m; try lia.
  rewrite iter_pos_nat, iter_shr_1_m, shr_record_of_loc_m
    by (rewrite shr_record_of_loc_m; lia).
  apply Z.div_pos; lia.
Qed.

Lemma binary_round_aux_not_nan s m e l :
  0 <= m -> binary_round_aux prec emax s m e l <> S754_nan.
Proof.
  intros Hm. unfold binary_round_aux.
  assert (H1 := shr_fexp_nonneg m e l Hm).
  destruct (shr_fexp prec emax m e l) as [mrs' e']. simpl in H1.
  assert (H2 := round_nearest_even_ge (shr_m mrs') (loc_of_shr_record mrs')).
  assert (H3 := shr_fexp_nonneg (round_nearest_even (shr_m mrs')
                  (loc_of_shr_record mrs')) e' loc_Exact ltac:(lia)).
  destruct (shr_fexp prec emax _ e' loc_Exact) as [mrs'' e''].
  simpl in H3. destruct (shr_m mrs''); try discriminate; try lia.
  now destruct (e'' <=? emax - prec).
Qed.

Lemma SFdiv_finite_not_nan X m e :
  X <> S754_nan -> SFdiv prec emax X (S754_finite false m e) <> S754_nan.
Proof.
  intros HX. destruct X as [sx | sx | | sx mx ex]; try discriminate;
    [now contradiction HX | ].
  unfold SFdiv, SFdiv_core_binary.
  set (s := ex - e - Z.min _ _).
  set (m' := match s with Zpos _ => Z.shiftl (Zpos mx) s
                     | Z0 => Zpos mx | Zneg _ => 0 end).
  assert (Hm' : 0 <= m').
  { unfold m'. destruct s; try lia. apply Z.shiftl_nonneg. lia. }
  assert (Hq := Z.div_pos m' (Zpos m) Hm' ltac:(lia)).
  unfold Z.div in Hq. destruct (Z.div_eucl m' (Zpos m)) as [q r].
  simpl in Hq. now apply binary_round_aux_not_nan.
Qed.

(** Dividing by a positive count gives NaN only from NaN. *)
Lemma div_count_nan x n :
  (0 < n)%nat -> Z.of_nat n < 2 ^ prec ->
  is_nan (x / Dec.of_nat n)%float = true -> is_nan x = true.
Proof.
  intros Hn Hb H. apply is_nan_Prim2SF in H.
  rewrite FloatAxioms.div_spec in H.
  destruct (of_nat_finite n Hn Hb) as (m & e & E). rewrite E in H.
  destruct (is_nan x) eqn:Ex; [reflexivity | ].
  now apply SFdiv_finite_not_nan in H; [ | apply not_nan_Prim2SF].
Qed.

(** ** Printed numbers parse back *)

Section Printed.
Import Num Dec.

Lemma binary_round_not_nan s m e : binary_round prec emax s m e <> S754_nan.
Proof.
  unfold binary_round. destruct (shl_align m e _) as [mz ez].
  now apply binary_round_aux_not_nan.
Qed.

Lemma binary_normalize_not_nan z e sz :
  binary_normalize prec emax z e sz <> S754_nan.
Proof.
  destruct z; simpl; [discriminate | | ]; apply binary_round_not_nan.
Qed.

Lemma SF2Prim_not_nan v : v <> S754_nan -> is_nan (SF2Prim v) = false.
Proof.
  intros Hv. destruct v as [[] | [] | | s m e]; try reflexivity;
    [now contradiction Hv | ].
  apply not_true_is_false. intros H. apply is_nan_Prim2SF in H.
  unfold SF2Prim in H.
  assert (K : Prim2SF (Z.ldexp (of_uint63 (Uint63.of_Z (Zpos m))) e)
              <> S754_nan).
  { rewrite Z_ldexp_spec, of_uint63_spec. unfold SFldexp.
    destruct (binary_normalize prec emax _ 0 false) eqn:E;
      try discriminate; [ | apply binary_round_not_nan].
    now apply binary_normalize_not_nan in E. }
  destruct s; [ | contradiction].
  rewrite opp_spec in H.
  destruct (Prim2SF (Z.ldexp _ e)); try discriminate H. now contradiction K.
Qed.

Lemma to_float_not_nan s m e : is_nan (Dec.to_float s m e) = false.
Proof.
  unfold Dec.to_float. destruct m as [ | p | p]; try (now destruct s).
  apply SF2Prim_not_nan. unfold Dec.round_pos.
  destruct e as [ | k | k]; try apply binary_normalize_not_nan.
  now apply SFdiv_finite_not_nan.
Qed.


Ltac by_cases_on_char c :=
  destruct c as [[] [] [] [] [] [] [] []]; try discriminate; try reflexivity.

Lemma digit_not_marker c :
  is_digit c = true ->
  is_space c = false /\ is_char "-" c = false /\ is_char "+" c = false /\
  is_char "." c = false /\ is_char "e" c = false /\ is_char "E" c = false /\
  Ascii.eqb "I" c = false /\
  is_char "x" c || is_char "X" c = false /\
  is_char "o" c || is_char "O" c = false /\
  is_char "b" c || is_char "B" c = false.
Proof. by_cases_on_char c; intros _; repeat split. Qed.

Lemma radix_digit_0 c : radix_digit 0 c = false.
Proof. by_cases_on_char c. Qed.

Lemma span_radix_0 l : span (radix_digit 0) l = ([], l).
Proof. destruct l as [ | c l]; [reflexivity | ]. simpl. now rewrite radix_digit_0. Qed.

Lemma span_digits ds rest :
  Forall (fun c => is_digit c = true) ds ->
  match rest with c :: _ => is_digit c = false | [] => True end ->
  span is_digit (ds ++ rest) = (ds, rest).
Proof.
  intros H Hr. induction H as [ | d ds Hd _ IH]; simpl.
  - destruct rest as [ | c rest]; [reflexivity | ]. simpl. now rewrite Hr.
  - now rewrite Hd, IH.
Qed.

Lemma exponent_text_head ex :
  exponent_text ex ->
  match ex with c :: _ => is_digit c = false | [] => True end.
Proof. now intros []. Qed.

Lemma exponent_part_text m e ex :
  exponent_text ex -> exists e', with_exponent m e ex = (LFin m e', []).
Proof.
  intros [ | sg es Hs Hn He]; [now exists e | ].
  unfold with_exponent, exponent_part.
  change (is_char "e" "e" || is_char "E" "e") with true. cbv iota.
  assert (Hspan : span is_digit es = (es, []))
    by (rewrite <- (app_nil_r es) at 1; now apply span_digits).
  destruct Hs as [-> | ->]; simpl; rewrite Hspan;
    (destruct es; [now contradiction Hn | eexists; reflexivity]).
Qed.

Lemma unsigned_literal_text ip tl :
  ip <> [] -> Forall (fun c => is_digit c = true) ip -> tail_text tl ->
  exists m e, unsigned_literal (ip ++ tl) = Some (LFin m e, []).
Proof.
  intros Hn Hd Ht. unfold unsigned_literal.
  destruct ip as [ | d ip]; [now contradiction Hn | ].
  assert (Hd0 : is_digit d = true) by now inversion Hd.
  destruct (digit_not_marker d Hd0) as (_ & _ & _ & _ & _ & _ & HI & _).
  change (strip_prefix (list_ascii_of_string "Infinity") ((d :: ip) ++ tl))
    with (if Ascii.eqb "I" d
          then strip_prefix (list_ascii_of_string "nfinity") (ip ++ tl)
          else None).
  rewrite HI.
  assert (Hspan : span is_digit ((d :: ip) ++ tl) = (d :: ip, tl)).
  { apply span_digits; [exact Hd | ].
    destruct Ht as [ex Hex | fs ex _ _]; [now apply exponent_text_head | ].
    reflexivity. }
  rewrite Hspan.
  destruct Ht as [ex Hex | fs ex Hfs Hex].
  - destruct (exponent_part_text (digits_val 10 digit_val (d :: ip)) 0 ex Hex)
      as [e' E].
    destruct Hex as [ | sg es Hs Hes Hes']; [rewrite E; eauto | ].
    change (is_char "." "e") with false. cbv iota. rewrite E. eauto.
  - change (is_char "." ".") with true. cbv iota.
    rewrite (span_digits fs ex Hfs (exponent_text_head ex Hex)).
    destruct (exponent_part_text
                (digits_val 10 digit_val ((d :: ip) ++ fs))
                (- Z.of_nat (length fs)) ex Hex) as [e' E].
    rewrite E. eauto.
Qed.

(** [Number] reads every printed decimal as a number. *)
Lemma of_string_text (neg : bool) ip tl :
  ip <> [] -> Forall (fun c => is_digit c = true) ip -> tail_text tl ->
  is_nan (of_string (string_of_list_ascii
                       ((if neg then ["-"%char] else []) ++ ip ++ tl)))
  = false.
Proof.
  intros Hn Hd Ht. unfold of_string.
  rewrite list_ascii_of_string_of_list_ascii.
  destruct (unsigned_literal_text ip tl Hn Hd Ht) as (m & e & E).
  destruct ip as [ | d ip]; [now contradiction Hn | ].
  assert (Hd0 : is_digit d = true) by now inversion Hd.
  destruct (digit_not_marker d Hd0)
    as (Hsp & Hm & Hp & _ & _ & _ & _ & Hx & Ho & Hb).
  destruct neg; simpl app.
  - change (drop_spaces ("-"%char :: d :: ip ++ tl))
      with ("-"%char :: d :: ip ++ tl).
    change (non_decimal_literal ("-"%char :: d :: ip ++ tl)) with
      (@None (float * list ascii)).
    unfold decimal_literal. change (is_char "-" "-") with true. cbv iota.
    change (d :: ip ++ tl) with ((d :: ip) ++ tl). rewrite E.
    apply to_float_not_nan.
  - assert (Hds : drop_spaces (d :: ip ++ tl) = d :: ip ++ tl)
      by (simpl; now rewrite Hsp).
    rewrite Hds.
    assert (Hnd : non_decimal_literal (d :: ip ++ tl) = None).
    { unfold non_decimal_literal.
      destruct (ip ++ tl) as [ | r l1] eqn:El; [reflexivity | ].
      destruct (is_char "0" d); [ | reflexivity].
      assert (Hr : is_digit r = true \/ r = "."%char \/ r = "e"%char).
      { destruct ip as [ | d' ip'].
        - simpl in El. subst tl.
          inversion Ht as [ex Hex Eq | fs ex _ _ Eq]; [ | now right; left].
          inversion Hex. now right; right.
        - simpl in El. injection El as <- _. left.
          inversion Hd as [ | ? ? _ Hd']. now inversion Hd'. }
      destruct Hr as [Hr | [-> | ->]].
      - destruct (digit_not_marker r Hr)
          as (_ & _ & _ & _ & _ & _ & _ & Hx' & Ho' & Hb').
        rewrite Hx', Ho', Hb'. now rewrite span_radix_0.
      - simpl. now rewrite span_radix_0.
      - simpl. now rewrite span_radix_0. }
    rewrite Hnd. unfold decimal_literal. rewrite Hm, Hp.
    change (d :: ip ++ tl) with ((d :: ip) ++ tl). rewrite E.
    apply to_float_not_nan.
Qed.

Lemma digit_char r : 0 <= r < 10 -> is_digit (ascii_of_N (Z.to_N (48 + r))) = true.
Proof.
  intros H. unfold is_digit.
  rewrite N_ascii_embedding by lia. rewrite Z2N.id by lia.
  apply andb_true_intro. split; apply Z.leb_le; lia.
Qed.

Lemma digits_fuel_text fuel n acc :
  Forall (fun c => is_digit c = true) acc ->
  Forall (fun c => is_digit c = true) (digits_fuel fuel n acc).
Proof.
  revert n acc. induction fuel as [ | fuel IH]; intros n acc H; [exact H | ].
  simpl. assert (Hc := digit_char (n mod 10) (Z.mod_pos_bound n 10 eq_refl)).
  destruct (n <? 10); [now constructor | ]. apply IH. now constructor.
Qed.

Lemma digits_fuel_cons fuel n acc :
  (fuel <> O \/ acc <> []) -> digits_fuel fuel n acc <> [].
Proof.
  revert n acc. induction fuel as [ | fuel IH]; intros n acc H.
  - simpl. now destruct H.
  - simpl. destruct (n <? 10); [discriminate | ]. apply IH. now right.
Qed.

Lemma digits_text n :
  Forall (fun c => is_digit c = true) (digits n) /\ digits n <> [].
Proof.
  split; [now apply digits_fuel_text | apply digits_fuel_cons; now left].
Qed.

Lemma zeros_text n : Forall (fun c => is_digit c = true) (zeros n).
Proof.
  unfold zeros. induction (Z.to_nat n); simpl; constructor; auto.
Qed.

Lemma firstn_In {A} n (l : list A) x : In x (firstn n l) -> In x l.
Proof.
  intros H. rewrite <- (firstn_skipn n l). apply in_or_app. now left.
Qed.

Lemma skipn_In {A} n (l : list A) x : In x (skipn n l) -> In x l.
Proof.
  intros H. rewrite <- (firstn_skipn n l). apply in_or_app. now right.
Qed.

Lemma all_firstn {A} n (l : list A) (P : A -> Prop) (H : Forall P l) :
  Forall P (firstn n l).
Proof.
  apply List.Forall_forall. intros x Hx. apply firstn_In in Hx.
  revert x Hx. now apply List.Forall_forall.
Qed.

Lemma all_skipn {A} n (l : list A) (P : A -> Prop) (H : Forall P l) :
  Forall P (skipn n l).
Proof.
  apply List.Forall_forall. intros x Hx. apply skipn_In in Hx.
  revert x Hx. now apply List.Forall_forall.
Qed.

Lemma Forall_app_2 {A} (P : A -> Prop) l l' :
  Forall P l -> Forall P l' -> Forall P (l ++ l').
Proof. induction 1; simpl; auto. Qed.

Lemma firstn_cons_ne {A} n (l : list A) : n <> O -> l <> [] -> firstn n l <> [].
Proof. destruct n, l; simpl; congruence. Qed.

Lemma tail_fraction_only fs :
  Forall (fun c => is_digit c = true) fs -> tail_text ("."%char :: fs).
Proof.
  intros H. rewrite <- (app_nil_r fs). constructor; [exact H | constructor].
Qed.

Lemma layout_text s k n :
  exists ip tl,
    layout s k n = ip ++ tl /\ ip <> [] /\
    Forall (fun c => is_digit c = true) ip /\ tail_text tl.
Proof.
  unfold layout. destruct (digits_text s) as [Hd Hn].
  destruct ((k <=? n) && (n <=? 21)).
  { exists (digits s ++ zeros (n - k)), []. rewrite app_nil_r.
    repeat split.
    - destruct (digits s); [now contradiction Hn | discriminate].
    - apply Forall_app_2; [exact Hd | apply zeros_text].
    - repeat constructor. }
  destruct ((0 <? n) && (n <=? 21)) eqn:E2.
  { exists (firstn (Z.to_nat n) (digits s)),
      ("."%char :: skipn (Z.to_nat n) (digits s)).
    repeat split.
    - apply firstn_cons_ne; [ | exact Hn].
      apply andb_prop in E2 as [E2 _]. apply Z.ltb_lt in E2. lia.
    - now apply all_firstn.
    - apply tail_fraction_only. now apply all_skipn. }
  destruct ((-6 <? n) && (n <=? 0)).
  { exists ["0"%char], ("."%char :: zeros (- n) ++ digits s).
    repeat split; try discriminate.
    - repeat constructor.
    - apply tail_fraction_only.
      apply Forall_app_2; [apply zeros_text | exact Hd]. }
  assert (Hex : exponent_text
                  ("e"%char :: (if n - 1 <? 0 then "-"%char else "+"%char)
                     :: digits (Z.abs (n - 1)))).
  { destruct (digits_text (Z.abs (n - 1))) as [He Hne].
    constructor; [destruct (n - 1 <? 0); auto | exact Hne | exact He]. }
  destruct (digits s) as [ | d [ | d' tl]] eqn:Eds; [now contradiction Hn | | ].
  - eexists [d], _. repeat split; [discriminate | exact Hd | ].
    now constructor.
  - inversion Hd as [ | ? ? Hd0 Hd']; subst.
    eexists [d], ("."%char :: (d' :: tl) ++ _). repeat split.
    + discriminate.
    + repeat constructor. exact Hd0.
    + constructor; [exact Hd' | exact Hex].
Qed.

(** Rounding to two decimals never makes NaN out of a number. *)
Lemma round2_not_nan x : is_nan x = false -> is_nan (round2 x) = false.
Proof.
  intros Hx. apply not_nan_Prim2SF in Hx.
  unfold round2, Number, toFixed2.
  assert (Hs : forall sg m e,
             Prim2SF x = S754_finite sg m e ->
             is_nan (of_string (to_string x)) = false).
  { intros sg m e E. unfold to_string. rewrite E.
    destruct (fraction m e) as [num den].
    destruct (shortest 17 (abs x) num den (magnitude num den) 1)
      as [[s k] n].
    destruct (layout_text s k n) as (ip & tl & -> & H1 & H2 & H3).
    now apply of_string_text. }
  destruct (Prim2SF x) as [sg | sg | | sg m e] eqn:E.
  - reflexivity.
  - unfold to_string. rewrite E. now destruct sg.
  - now contradiction Hx.
  - destruct (1e21 <=? abs x)%float; [now apply Hs with sg m e | ].
    destruct (fraction m e) as [num den].
    set (ds0 := digits (round_hundredths num den)).
    set (ds := zeros (3 - Z.of_nat (length ds0)) ++ ds0).
    assert (Hds : Forall (fun c => is_digit c = true) ds).
    { apply Forall_app_2; [apply zeros_text | apply digits_text]. }
    assert (Hlen : (3 <= length ds)%nat).
    { unfold ds, zeros. rewrite length_app, repeat_length. lia. }
    apply of_string_text.
    + apply firstn_cons_ne; [lia | ].
      destruct ds; [simpl in Hlen; lia | discriminate].
    + now apply all_firstn.
    + apply tail_fraction_only. now apply all_skipn.
Qed.

End Printed.

(** ** Alias resolution *)

Lemma js_or_settled v : settled (js_or v (VStr "")).
Proof.
  unfold settled, js_or. destruct (truthy v) eqn:E; [left | right]; auto.
Qed.

Lemma get_settled d keys : settled (get d keys).
Proof. apply js_or_settled. Qed.

Lemma settled_present v : settled v -> present v = true.
Proof. intros [H | ->]; [destruct v; try discriminate | ]; reflexivity. Qed.

Lemma js_or_of_settled v : settled v -> js_or v (VStr "") = v.
Proof. unfold js_or. intros [-> | ->]; reflexivity. Qed.

Lemma get_head_settled v rest :
  settled v -> js_or (js_find present (v :: rest)) (VStr "") = v.
Proof.
  intros H. unfold js_find. simpl. rewrite (settled_present _ H).
  now apply js_or_of_settled.
Qed.

Lemma settled_toString v : settled v -> exists s, toString v = Some s.
Proof.
  intros [H | ->]; [ | now exists "" ].
  destruct v; try discriminate; simpl; eauto.
Qed.

Lemma js_find_first_present d keys :
  js_find present (map (prop d) keys) =
  match first_present d keys with Some v => v | None => VUndefined end.
Proof.
  unfold js_find. induction keys as [ | k keys IH]; [reflexivity | ].
  simpl. unfold prop at 1 2. destruct (d !! k) as [v | ]; simpl.
  - destruct (present v); [reflexivity | exact IH].
  - exact IH.
Qed.

(** C5, as amended: [get] returns the value of the first alias whose cell
    is neither [null] nor [undefined] when that value is truthy, and the
    empty string when it is falsy or when no alias has such a cell; later
    aliases are not consulted either way. *)
Theorem get_first_present (d : RawRow) (keys : list string) :
  get d keys =
  match first_present d keys with
  | Some v => if truthy v then v else VStr ""
  | None => VStr ""
  end.
Proof.
  unfold get. fold present. rewrite js_find_first_present.
  destruct (first_present d keys); reflexivity.
Qed.

(** C5 fails as stated: a present cell holding [0] under the first alias
    is not what [get] returns (it returns the empty string). *)
Lemma get_drops_falsy_cell :
  ~ (forall (d : RawRow) (keys : list string) (v : value),
        first_present d keys = Some v -> get d keys = v).
Proof.
  intros H.
  specialize (H (row [("coffee_name", VNum 0); ("Coffee Name", VStr "Latte")])
                name_keys (VNum 0) eq_refl).
  vm_compute in H. discriminate H.
Qed.

(** ** The normaliser *)

Lemma normalize_total d :
  exists str,
    toString (get d sales_keys) = Some str /\
    normalize d =
    Some {| sales := num_or (Num.parseFloat (replace_class str)) zero;
            Monthsort := Number (get d month_keys);
            coffee_name := get d name_keys;
            transaction_id := get d id_keys;
            Time_of_Day := get d time_keys |}.
Proof.
  destruct (settled_toString _ (get_settled d sales_keys)) as [str E].
  exists str. split; [exact E | ]. unfold normalize. now rewrite E.
Qed.

Lemma num_or_not_nan x : is_nan (num_or x zero) = false.
Proof.
  unfold num_or, num_truthy.
  destruct (is_zero x); simpl; [reflexivity | ].
  destruct (is_nan x) eqn:E; simpl; [reflexivity | exact E].
Qed.

Lemma num_or_nan x : is_nan x = true -> num_or x zero = zero.
Proof.
  intros H. unfold num_or, num_truthy. rewrite H.
  now rewrite orb_true_r.
Qed.

(** C2, as amended: normalisation raises no error on any row, the [sales]
    of the record is never NaN, and it is 0 whenever [parseFloat] finds no
    number in the cell's text.  (It can be negative or infinite.) *)
Theorem sales_never_nan (d : RawRow) :
  exists t str,
    normalize d = Some t /\
    toString (get d sales_keys) = Some str /\
    is_nan (sales t) = false /\
    (is_nan (Num.parseFloat (replace_class str)) = true -> sales t = zero).
Proof.
  destruct (normalize_total d) as (str & E & N).
  eexists _, str. split; [exact N | ]. split; [exact E | ]. simpl.
  split; [apply num_or_not_nan | apply num_or_nan].
Qed.

(** C2 fails as stated: the cell ["-5"] normalises to the negative
    [sales] of -5, and the cell ["Infinity"] to an infinite one. *)
Lemma sales_negative_or_infinite :
  ~ (forall (d : RawRow) (t : Transaction),
        normalize d = Some t ->
        is_finite (sales t) = true /\ (zero <=? sales t)%float = true) /\
  normalize (row [("Sales_amount", VStr "-5")]) =
    Some {| sales := (-5)%float; Monthsort := zero; coffee_name := VStr "";
            transaction_id := VStr ""; Time_of_Day := VStr "" |} /\
  option_map sales (normalize (row [("Sales_amount", VStr "Infinity")])) =
    Some infinity.
Proof.
  split; [ | split; vm_compute; reflexivity ].
  intros H.
  destruct (H (row [("Sales_amount", VStr "-5")]) _ eq_refl) as [_ H1].
  vm_compute in H1. discriminate H1.
Qed.

(** C3: the three examples of the specification hold, but white space is
    not removed before parsing: no white-space character is in the class
    of the regular expression (which holds a backslash and the letter s
    instead), so ["1 234.50"] is read as 1, not as 1234.5. *)
Theorem monetary_coercion_keeps_spaces :
  let sales_of cell :=
    option_map sales (normalize (row [("Sales_amount", VStr cell)])) in
  sales_of "$1,234.50" = Some 1234.5%float /\
  sales_of "abc" = Some zero /\
  sales_of "" = Some zero /\
  (forall c, Num.is_space c && in_class c = false) /\
  replace_class "1 234.50" = "1 234.50" /\
  sales_of "1 234.50" = Some 1%float /\
  replace_class "s5\" = "5".
Proof.
  repeat split; try (vm_compute; reflexivity).
  intros c. destruct c as [[] [] [] [] [] [] [] []]; reflexivity.
Qed.

(** ** Month coercion and the month filter *)

Lemma filtered_In data coffee lo hi t :
  In t (filtered data coffee lo hi) ->
  In t data /\
  (String.eqb coffee "All" || strict_eq (coffee_name t) (VStr coffee)) = true /\
  (lo <=? Monthsort t)%float = true /\ (Monthsort t <=? hi)%float = true.
Proof.
  unfold filtered. rewrite filter_In.
  intros [Hin H]. apply andb_prop in H as [H1 H2].
  apply andb_prop in H2 as [H2 H3]. auto.
Qed.

(** C4, as amended: the month field is coerced with [Number], which
    raises no error, keeps fractional values, gives NaN for a string that
    is not a numeric literal and 0 for a missing or empty cell; both range
    comparisons are false on NaN, so no month-range filter keeps a row
    whose [Monthsort] is NaN. *)
Theorem nan_month_excluded :
  (forall d : RawRow,
      exists t, normalize d = Some t /\
                Monthsort t = Number (get d month_keys)) /\
  (forall x lo hi : float,
      is_nan x = true ->
      (lo <=? x)%float = false /\ (x <=? hi)%float = false) /\
  (forall (data : list Transaction) (coffee : string) (lo hi : float)
          (t : Transaction),
      In t (filtered data coffee lo hi) -> is_nan (Monthsort t) = false) /\
  Number (VStr "abc") = nan /\
  Number (VStr "2.5") = 2.5%float /\
  Number (get (row [("Sales_amount", VNum 5)]) month_keys) = zero.
Proof.
  split; [ | split; [ | split ] ].
  - intros d. destruct (normalize_total d) as (str & _ & N).
    eexists. split; [exact N | reflexivity].
  - intros x lo hi H. split; [now apply leb_nan_r | now apply leb_nan_l].
  - intros data coffee lo hi t H.
    apply filtered_In in H as (_ & _ & H & _).
    destruct (is_nan (Monthsort t)) eqn:E; [ | reflexivity].
    now rewrite (leb_nan_r _ lo E) in H.
  - repeat split; vm_compute; reflexivity.
Qed.

(** C4 fails as stated: the month field is not made an integer.  A cell
    holding 2.5 keeps that value, which is neither an integer nor NaN, and
    the row passes the month filter from 1 to 12. *)
Lemma month_not_integer :
  ~ (forall (d : RawRow) (t : Transaction),
        normalize d = Some t ->
        is_nan (Monthsort t) || is_integer (Monthsort t) = true) /\
  (forall t,
      normalize (row [("Monthsort", VNum 2.5)]) = Some t ->
      Monthsort t = 2.5%float /\ filtered [t] "All" 1 12 = [t]).
Proof.
  split.
  - intros H.
    specialize (H (row [("Monthsort", VNum 2.5)]) _ eq_refl).
    vm_compute in H. discriminate H.
  - intros t H. vm_compute in H. injection H as <-.
    split; vm_compute; reflexivity.
Qed.

(** ** A second normalisation pass *)

Lemma num_or_idem x : num_or (num_or x zero) zero = num_or x zero.
Proof.
  unfold num_or at 2 3. destruct (num_truthy x) eqn:E.
  - unfold num_or. now rewrite E.
  - reflexivity.
Qed.

Lemma Number_js_or_num x :
  Number (js_or (VNum x) (VStr "")) = num_or x zero.
Proof. unfold js_or, num_or. simpl. now destruct (num_truthy x). Qed.

Lemma normalize_normal d t : normalize d = Some t -> normal t.
Proof.
  destruct (normalize_total d) as (str & _ & N). rewrite N.
  intros [= <-]. repeat split; apply get_settled.
Qed.

Lemma second_pass_normal t : normal t -> normal (second_pass t).
Proof. intros H. exact H. Qed.

Lemma normalize_as_row t :
  normal t -> normalize (as_row t) = Some (second_pass t).
Proof.
  intros (Hn & Hi & Ht). unfold normalize.
  change (get (as_row t) sales_keys) with (VStr "").
  change (toString (VStr "")) with (Some "").
  cbv iota beta.
  change (get (as_row t) month_keys)
    with (js_or (VNum (Monthsort t)) (VStr "")).
  change (get (as_row t) name_keys)
    with (js_or (js_find present [coffee_name t; VUndefined; VUndefined])
            (VStr "")).
  change (get (as_row t) id_keys)
    with (js_or (js_find present
                   [transaction_id t; VUndefined; VUndefined; VUndefined])
            (VStr "")).
  change (get (as_row t) time_keys)
    with (js_or (js_find present
                   [Time_of_Day t; VUndefined; VUndefined; VUndefined])
            (VStr "")).
  rewrite Number_js_or_num, !get_head_settled by assumption.
  reflexivity.
Qed.

Lemma second_pass_idem t : second_pass (second_pass t) = second_pass t.
Proof. unfold second_pass. simpl. now rewrite num_or_idem. Qed.

Lemma data_Forall raw ts :
  data raw = Some ts -> Forall normal ts /\ length ts = length raw.
Proof.
  revert ts. induction raw as [ | d raw IH]; simpl; intros ts H.
  - injection H as <-. split; [constructor | reflexivity].
  - destruct (normalize d) as [t | ] eqn:E; [ | discriminate].
    destruct (data raw) as [ts' | ]; [ | discriminate].
    injection H as <-. destruct (IH _ eq_refl) as [IH1 IH2].
    split; [ | simpl; now rewrite IH2].
    constructor; [now apply normalize_normal with d | exact IH1].
Qed.

Lemma data_as_row ts :
  Forall normal ts -> data (map as_row ts) = Some (map second_pass ts).
Proof.
  induction 1 as [ | t ts Ht _ IH]; [reflexivity | ].
  simpl. now rewrite normalize_as_row, IH.
Qed.

(** C1, as amended: a second pass over normalised records keeps
    [coffee_name], [transaction_id] and [Time_of_Day] and every truthy
    [Monthsort], but it sets every [sales] to 0 (no sales alias is the key
    [sales]) and a NaN [Monthsort] to 0; from the second pass on, a further
    pass changes nothing. *)
Theorem second_normalisation (raw : list RawRow) (ts : list Transaction) :
  data raw = Some ts ->
  data (map as_row ts) = Some (map second_pass ts) /\
  data (map as_row (map second_pass ts)) = Some (map second_pass ts).
Proof.
  intros H. apply data_Forall in H as [H _]. split.
  - now apply data_as_row.
  - rewrite data_as_row.
    + rewrite map_map. f_equal. apply map_ext. apply second_pass_idem.
    + induction H as [ | t ts' Ht _ IH]; constructor;
        [now apply second_pass_normal | exact IH].
Qed.

Lemma second_normalisation_witness :
  data latte_sheet = Some latte_records /\
  data (map as_row latte_records) = Some (map second_pass latte_records) /\
  data (map as_row (map second_pass latte_records)) =
    Some (map second_pass latte_records).
Proof.
  split; [vm_compute; reflexivity | ].
  apply (second_normalisation latte_sheet latte_records).
  vm_compute; reflexivity.
Defined.

(** C1 fails as stated: normalising the normalised Latte row again turns
    its [sales] from 5 into 0. *)
Lemma second_pass_resets_sales :
  ~ (forall (raw : list RawRow) (ts : list Transaction),
        data raw = Some ts -> data (map as_row ts) = Some ts).
Proof.
  intros H. specialize (H latte_sheet latte_records eq_refl).
  vm_compute in H. discriminate H.
Qed.

(** ** SameValueZero is an equivalence *)

Lemma num_svz_iff x y :
  (x =? y)%float || (is_nan x && is_nan y) = true <->
  is_nan x = is_nan y /\ (is_nan x = false -> fkey x = fkey y).
Proof.
  split.
  - intros H. apply orb_prop in H as [H | H].
    + destruct (eqb_nan _ _ H) as [Hx Hy]. split; [congruence | ].
      intros _. now apply eqb_key.
    + apply andb_prop in H as [-> ->]. split; [reflexivity | discriminate].
  - intros [H1 H2]. destruct (is_nan x) eqn:Hx.
    + rewrite <- H1. simpl. apply orb_true_r.
    + apply orb_true_intro. left. apply eqb_key; auto.
Qed.

Lemma svz_refl a : same_value_zero a a = true.
Proof.
  destruct a as [ | | b | x | s]; simpl; try reflexivity.
  - now destruct b.
  - apply num_svz_iff. auto.
  - apply String.eqb_refl.
Qed.

Lemma svz_sym a b : same_value_zero a b = true -> same_value_zero b a = true.
Proof.
  destruct a as [ | | p | x | s], b as [ | | q | y | t]; simpl;
    try discriminate; try reflexivity.
  - now destruct p, q.
  - rewrite !num_svz_iff. intros [H1 H2]. split; [congruence | ].
    intros H. symmetry. apply H2. congruence.
  - rewrite !String.eqb_eq. congruence.
Qed.

Lemma svz_trans a b c :
  same_value_zero a b = true -> same_value_zero b c = true ->
  same_value_zero a c = true.
Proof.
  destruct a as [ | | p | x | s], b as [ | | q | y | t], c as [ | | r | z | u];
    simpl; try discriminate; try reflexivity.
  - now destruct p, q, r.
  - rewrite !num_svz_iff. intros [H1 H2] [H3 H4]. split; [congruence | ].
    intros H. rewrite H2 by exact H. apply H4. congruence.
  - rewrite !String.eqb_eq. congruence.
Qed.

Lemma svz_congr a b c :
  same_value_zero a b = true ->
  same_value_zero c a = same_value_zero c b.
Proof.
  intros H. destruct (same_value_zero c a) eqn:E1.
  - symmetry. now apply svz_trans with a.
  - destruct (same_value_zero c b) eqn:E2; [ | reflexivity].
    rewrite <- E1. apply svz_trans with b; [exact E2 | ].
    now apply svz_sym.
Qed.

(** ** Sorting *)

Section SortFacts.
Context {A : Type} (after : A -> A -> bool).

Lemma sort_insert_perm a l : Permutation (sort_insert after a l) (a :: l).
Proof.
  induction l as [ | b l IH]; simpl; [reflexivity | ].
  destruct (after a b); [ | reflexivity].
  rewrite IH. apply perm_swap.
Qed.

Lemma js_sort_perm l : Permutation (js_sort after l) l.
Proof.
  induction l as [ | a l IH]; simpl; [reflexivity | ].
  rewrite sort_insert_perm. now constructor.
Qed.

Lemma js_sort_length l : length (js_sort after l) = length l.
Proof. apply Permutation_length, js_sort_perm. Qed.

Lemma js_sort_In a l : In a (js_sort after l) <-> In a l.
Proof.
  split; apply Permutation_in; [ | symmetry]; apply js_sort_perm.
Qed.

(** Stability: the elements of a class that the comparator never moves
    past one another keep their order. *)
Lemma sort_insert_filter (p : A -> bool) a l :
  (forall b, p a = true -> after a b = true -> p b = false) ->
  List.filter p (sort_insert after a l) = List.filter p (a :: l).
Proof.
  intros H. induction l as [ | b l IH]; [reflexivity | ].
  simpl. destruct (after a b) eqn:E; [ | reflexivity].
  simpl. rewrite IH. simpl.
  destruct (p a) eqn:Pa; [ | reflexivity].
  now rewrite (H b eq_refl E).
Qed.

Lemma js_sort_filter (p : A -> bool) l :
  (forall a b, p a = true -> after a b = true -> p b = false) ->
  List.filter p (js_sort after l) = List.filter p l.
Proof.
  intros H. induction l as [ | a l IH]; [reflexivity | ].
  simpl js_sort. rewrite sort_insert_filter by apply H.
  simpl. now rewrite IH.
Qed.

Hypothesis after_asym : forall a b, after a b = true -> after b a = false.

Lemma sort_insert_sorted a l :
  Sorted (fun x y => after x y = false) l ->
  Sorted (fun x y => after x y = false) (sort_insert after a l).
Proof.
  induction 1 as [ | b l Hs IH Hb]; simpl.
  - repeat constructor.
  - destruct (after a b) eqn:E.
    + constructor; [exact IH | ].
      destruct Hb as [ | c l Hbc]; simpl.
      * constructor. now apply after_asym.
      * destruct (after a c); constructor; [exact Hbc | now apply after_asym].
    + repeat constructor; assumption.
Qed.

(** No element of the sorted array is followed by one that the
    comparator puts before it. *)
Lemma js_sort_sorted l : Sorted (fun x y => after x y = false) (js_sort after l).
Proof.
  induction l as [ | a l IH]; simpl; [constructor | ].
  now apply sort_insert_sorted.
Qed.

Variable ok : A -> Prop.

Hypothesis after_ntrans :
  forall a b c, ok a -> ok b -> ok c ->
                after a b = false -> after b c = false -> after a c = false.

Lemma sorted_strongly l :
  Forall ok l ->
  Sorted (fun x y => after x y = false) l ->
  StronglySorted (fun x y => after x y = false) l.
Proof.
  intros Hok Hs. induction Hs as [ | a l Hs IH Ha]; [constructor | ].
  inversion Hok as [ | ? ? Oa Ol]; subst.
  specialize (IH Ol). constructor; [exact IH | ].
  destruct Ha as [ | b l Hab]; [constructor | ].
  inversion Ol as [ | ? ? Ob Ol']; subst.
  inversion IH as [ | ? ? _ Hb]; subst.
  constructor; [exact Hab | ].
  rewrite List.Forall_forall in *. intros c Hc.
  apply after_ntrans with b; auto.
Qed.

Lemma js_sort_strongly l :
  Forall ok l -> StronglySorted (fun x y => after x y = false) (js_sort after l).
Proof.
  intros H. apply sorted_strongly; [ | apply js_sort_sorted].
  rewrite List.Forall_forall in *. intros x Hx. apply H. now apply js_sort_In.
Qed.

(** The head of the sorted array is the first greatest element. *)
Lemma js_sort_head a l :
  Forall ok (a :: l) ->
  exists pre h post tl,
    a :: l = pre ++ h :: post /\
    js_sort after (a :: l) = h :: tl /\
    (forall x, In x (a :: l) -> after h x = false) /\
    (forall x, In x pre -> after x h = true).
Proof.
  revert a. induction l as [ | b l IH]; intros a Hok.
  - exists [], a, [], []. repeat split; try reflexivity.
    + intros x [<- | []].
      destruct (after a a) eqn:E; [ | reflexivity].
      now rewrite (after_asym _ _ E) in E.
    + intros x [].
  - inversion Hok as [ | ? ? Oa Ol]; subst.
    destruct (IH b Ol) as (pre & h & post & tl & E & S & M & P).
    assert (Oh : ok h).
    { rewrite List.Forall_forall in Ol. apply Ol. rewrite E.
      apply in_or_app. right. now left. }
    simpl js_sort in *. rewrite S. simpl.
    destruct (after a h) eqn:Eah.
    + exists (a :: pre), h, post, (sort_insert after a tl).
      rewrite E. repeat split; try reflexivity.
      * intros x [<- | Hx]; [now apply after_asym | ].
        apply M. exact Hx.
      * intros x [<- | Hx]; [exact Eah | now apply P].
    + exists [], a, (b :: l), (h :: tl). repeat split; try reflexivity.
      * intros x [<- | Hx].
        -- destruct (after a a) eqn:Eaa; [ | reflexivity].
           now rewrite (after_asym _ _ Eaa) in Eaa.
        -- rewrite List.Forall_forall in Ol.
           apply after_ntrans with h; auto.
      * intros x [].
Qed.

(** Two sorted arrangements of the same elements that keep the elements
    of every class of ties in the same order are equal: a stable sort has
    one result. *)
Variable same : A -> A -> bool.

Hypothesis same_tied :
  forall a b, ok a -> ok b ->
              after a b = false -> after b a = false -> same a b = true.

Lemma stable_sorted_unique l1 l2 :
  Forall ok l1 -> Permutation l1 l2 ->
  StronglySorted (fun x y => after x y = false) l1 ->
  StronglySorted (fun x y => after x y = false) l2 ->
  (forall x, ok x -> List.filter (same x) l1 = List.filter (same x) l2) ->
  l1 = l2.
Proof.
  assert (R : forall a, after a a = false).
  { intros a. destruct (after a a) eqn:E; [ | reflexivity].
    now rewrite (after_asym _ _ E) in E. }
  revert l2. induction l1 as [ | a l1 IH]; intros l2 Hok P S1 S2 F.
  - apply Permutation_nil in P. now subst.
  - destruct l2 as [ | b l2];
      [apply Permutation_sym, Permutation_nil in P; discriminate P | ].
    inversion Hok as [ | ? ? Oa Ol]; subst.
    inversion S1 as [ | ? ? S1' Ha]; subst.
    inversion S2 as [ | ? ? S2' Hb]; subst.
    rewrite List.Forall_forall in Ha, Hb.
    assert (Ob : ok b).
    { rewrite List.Forall_forall in Hok. apply Hok.
      apply (Permutation_in _ (Permutation_sym P)). now left. }
    assert (Eab : after a b = false).
    { destruct (Permutation_in _ (Permutation_sym P) (or_introl eq_refl))
        as [<- | Hin]; [apply R | now apply Ha]. }
    assert (Eba : after b a = false).
    { destruct (Permutation_in _ P (or_introl eq_refl))
        as [<- | Hin]; [apply R | now apply Hb]. }
    assert (E : a = b).
    { specialize (F a Oa). simpl in F.
      rewrite (same_tied a a Oa Oa (R a) (R a)) in F.
      rewrite (same_tied a b Oa Ob Eab Eba) in F. now injection F. }
    subst b. f_equal. apply IH; try assumption.
    + now apply Permutation_cons_inv with a.
    + intros x Ox. specialize (F x Ox). simpl in F.
      destruct (same x a); [now injection F | exact F].
Qed.

End SortFacts.

(** ** The comparators of lines 87 and 99 *)

Lemma ltb_false_key x y :
  is_nan x = false -> is_nan y = false ->
  ((x <? y)%float = false <-> ~ key_lt (fkey x) (fkey y)).
Proof.
  intros Hx Hy. rewrite <- (ltb_key x y Hx Hy).
  destruct (x <? y)%float; split; congruence.
Qed.

Lemma ltb_asym x y : (x <? y)%float = true -> (y <? x)%float = false.
Proof.
  intros H. destruct (ltb_nan _ _ H) as [Hx Hy].
  apply ltb_key in H; [ | assumption | assumption].
  apply ltb_false_key; [assumption | assumption | ].
  destruct (fkey x) as [[c1 e1] m1], (fkey y) as [[c2 e2] m2].
  unfold key_lt in *. lia.
Qed.

Lemma ltb_ntrans x y z :
  is_nan x = false -> is_nan y = false -> is_nan z = false ->
  (x <? y)%float = false -> (y <? z)%float = false ->
  (x <? z)%float = false.
Proof.
  intros Hx Hy Hz. rewrite !ltb_false_key by assumption.
  destruct (fkey x) as [[c1 e1] m1], (fkey y) as [[c2 e2] m2],
    (fkey z) as [[c3 e3] m3].
  unfold key_lt. lia.
Qed.

Lemma ltb_false_leb x y :
  is_nan x = false -> is_nan y = false ->
  (x <? y)%float = false -> (y <=? x)%float = true.
Proof.
  intros Hx Hy H. apply leb_key; [assumption | assumption | ].
  now apply ltb_false_key.
Qed.

Lemma ltb_neq x y v :
  (x <? y)%float = true -> (x =? v)%float = true -> (y =? v)%float = false.
Proof.
  intros H E. destruct (ltb_nan _ _ H) as [Hx Hy].
  destruct (eqb_nan _ _ E) as [_ Hv].
  apply ltb_key in H; [ | assumption | assumption].
  apply eqb_key in E; [ | assumption | assumption].
  destruct (y =? v)%float eqn:F; [ | reflexivity].
  apply eqb_key in F; [ | assumption | assumption].
  rewrite E, F in H.
  destruct (fkey v) as [[c e] m]. unfold key_lt in H. lia.
Qed.

Lemma ltb_tied x y :
  is_nan x = false -> is_nan y = false ->
  (x <? y)%float = false -> (y <? x)%float = false -> (x =? y)%float = true.
Proof.
  intros Hx Hy. rewrite !ltb_false_key by assumption.
  intros H1 H2. apply eqb_key; [assumption | assumption | ].
  destruct (fkey x) as [[c1 e1] m1], (fkey y) as [[c2 e2] m2].
  unfold key_lt in *.
  assert (c1 = c2 /\ e1 = e2 /\ m1 = m2) as (-> & -> & ->) by lia.
  reflexivity.
Qed.

Lemma after_total_ltb a b : after_total a b = (total a <? total b)%float.
Proof. apply sub_pos. Qed.

Lemma after_sales_ltb a b : after_sales a b = (Sales a <? Sales b)%float.
Proof. apply sub_pos. Qed.

(** ** Set and Map *)

Lemma svz_congr_l a b c :
  same_value_zero a b = true ->
  same_value_zero a c = same_value_zero b c.
Proof.
  intros H. destruct (same_value_zero b c) eqn:E.
  - now apply svz_trans with b.
  - destruct (same_value_zero a c) eqn:E2; [ | reflexivity].
    rewrite <- E. symmetry.
    apply svz_trans with a; [now apply svz_sym | exact E2].
Qed.

Lemma fold_set_add_In x l s :
  In x (fold_left set_add l s) -> In x s \/ In x l.
Proof.
  revert s. induction l as [ | v l IH]; intros s H; [now left | ].
  simpl in H. apply IH in H as [H | H]; [ | right; now right].
  unfold set_add in H. destruct (set_has s v); [now left | ].
  apply in_app_or in H as [H | [<- | []]]; [now left | right; now left].
Qed.

Lemma new_Set_In x l : In x (new_Set l) -> In x l.
Proof. intros H. now apply fold_set_add_In in H as [[] | H]. Qed.

Lemma set_add_NoDup s v : List.NoDup s -> List.NoDup (set_add s v).
Proof.
  intros H. unfold set_add, set_has.
  destruct (existsb _ s) eqn:E; [exact H | ].
  apply List.NoDup_app; [exact H | repeat constructor; now intros [] | ].
  intros x Hx [Hv | []]. subst x.
  assert (existsb (fun v' => same_value_zero v' v) s = true)
    by (apply existsb_exists; exists v; split; [exact Hx | apply svz_refl]).
  congruence.
Qed.

Lemma fold_set_add_NoDup l s :
  List.NoDup s -> List.NoDup (fold_left set_add l s).
Proof.
  revert s. induction l as [ | v l IH]; intros s H; [exact H | ].
  simpl. now apply IH, set_add_NoDup.
Qed.

Lemma new_Set_NoDup l : List.NoDup (new_Set l).
Proof. apply fold_set_add_NoDup. constructor. Qed.

Lemma fold_set_add_nil l s : fold_left set_add l s = [] -> s = [] /\ l = [].
Proof.
  revert s. induction l as [ | v l IH]; intros s H; [now split | ].
  simpl in H. apply IH in H as [H _]. unfold set_add in H.
  destruct (set_has s v) eqn:E.
  - subst s. discriminate E.
  - now destruct s.
Qed.

Lemma map_set_keys m k x : map fst (map_set m k x) = set_add (map fst m) k.
Proof.
  unfold set_add, set_has.
  induction m as [ | [k' y] m IH]; [reflexivity | ]. simpl.
  destruct (same_value_zero k' k); [reflexivity | ]. simpl.
  rewrite IH. now destruct (existsb _ (map fst m)).
Qed.

Lemma map_get_set m k' x k :
  map_get (map_set m k' x) k =
  if same_value_zero k' k then Some x else map_get m k.
Proof.
  induction m as [ | [k0 y] m IH]; [reflexivity | ]. simpl.
  destruct (same_value_zero k0 k') eqn:E; simpl.
  - rewrite (svz_congr_l _ _ k E). now destruct (same_value_zero k' k).
  - rewrite IH. destruct (same_value_zero k0 k) eqn:E0; [ | reflexivity].
    destruct (same_value_zero k' k) eqn:E1; [ | reflexivity].
    assert (same_value_zero k0 k' = true)
      by (apply svz_trans with k; [exact E0 | now apply svz_sym]).
    congruence.
Qed.

Lemma map_get_congr m a b :
  same_value_zero a b = true -> map_get m a = map_get m b.
Proof.
  intros H. induction m as [ | [k y] m IH]; [reflexivity | ]. simpl.
  now rewrite (svz_congr _ _ k H), IH.
Qed.

Lemma map_get_In m k x :
  map_get m k = Some x -> exists k', In (k', x) m /\ same_value_zero k' k = true.
Proof.
  induction m as [ | [k0 y] m IH]; [discriminate | ]. simpl.
  destruct (same_value_zero k0 k) eqn:E.
  - intros [= ->]. exists k0. split; [now left | exact E].
  - intros H. destruct (IH H) as (k' & H1 & H2).
    exists k'. split; [now right | exact H2].
Qed.

Lemma group_fold_keys rows m :
  map fst (fold_left group_step rows m) =
  fold_left set_add (map coffee_name rows) (map fst m).
Proof.
  revert m. induction rows as [ | r rows IH]; intros m; [reflexivity | ].
  simpl. rewrite IH. unfold group_step. now rewrite map_set_keys.
Qed.

Lemma group_fold_lookup rows m k :
  map_get (fold_left group_step rows m) k =
  fold_left running (named k rows) (map_get m k).
Proof.
  revert m. induction rows as [ | r rows IH]; intros m; [reflexivity | ].
  simpl. rewrite IH. unfold group_step. rewrite map_get_set.
  destruct (same_value_zero (coffee_name r) k) eqn:E; [ | reflexivity].
  simpl. unfold running at 2. now rewrite (map_get_congr m _ _ E).
Qed.

Lemma running_Some l acc :
  l <> [] -> exists x, fold_left running l acc = Some x.
Proof.
  revert acc. induction l as [ | r l IH]; intros acc H; [now contradiction H | ].
  simpl. destruct l as [ | r' l]; [eexists; reflexivity | ].
  now apply IH.
Qed.

Lemma rounded_entries_length m : length (rounded_entries m) = length m.
Proof. apply length_map. Qed.

Lemma map_set_distinct m k x :
  distinct_keys m -> distinct_keys (map_set m k x).
Proof.
  induction m as [ | [k0 y] m IH]; simpl; [now split | ].
  intros [H1 H2]. destruct (same_value_zero k0 k) eqn:E; simpl.
  - now split.
  - split; [ | now apply IH]. rewrite map_get_set.
    destruct (same_value_zero k k0) eqn:E'; [ | exact H1].
    apply svz_sym in E'. congruence.
Qed.

Lemma group_fold_distinct rows m :
  distinct_keys m -> distinct_keys (fold_left group_step rows m).
Proof.
  revert m. induction rows as [ | r rows IH]; intros m H; [exact H | ].
  simpl. apply IH. now apply map_set_distinct.
Qed.

Lemma map_get_found m k z k0 :
  In (k, z) m -> same_value_zero k k0 = true -> map_get m k0 <> None.
Proof.
  induction m as [ | [k1 y] m IH]; simpl; [now intros [] | ].
  intros [[= -> ->] | H] E.
  - now rewrite E.
  - destruct (same_value_zero k1 k0); [discriminate | now apply IH].
Qed.

Lemma distinct_In_get m k z :
  distinct_keys m -> In (k, z) m -> map_get m k = Some z.
Proof.
  induction m as [ | [k0 y] m IH]; simpl; [now intros _ [] | ].
  intros [H1 H2] [[= -> ->] | H].
  - now rewrite svz_refl.
  - destruct (same_value_zero k0 k) eqn:E; [ | now apply IH].
    apply svz_sym in E. now apply (map_get_found _ _ _ _ H) in E.
Qed.

Lemma group_sales_In_get rows k z :
  In (k, z) (group_sales rows) -> map_get (group_sales rows) k = Some z.
Proof.
  apply distinct_In_get. now apply (group_fold_distinct rows []).
Qed.

(** ** Sums of finite sales *)

Lemma SFkey_inj X Y :
  X <> S754_nan -> Y <> S754_nan -> SFkey X = SFkey Y ->
  X = Y \/ (exists sx sy, X = S754_zero sx /\ Y = S754_zero sy).
Proof.
  intros HX HY.
  destruct X as [sx | [] | | [] mx ex]; try now contradiction HX.
  all: destruct Y as [sy | [] | | [] my ey]; try now contradiction HY.
  all: simpl; intros E; try discriminate E; try (left; reflexivity).
  - right. eauto.
  - left. injection E as E1 E2. f_equal; lia.
  - left. injection E as E1 E2. f_equal; lia.
Qed.

Lemma feq_cases x y :
  feq x y = true ->
  x = y \/ (exists sx sy, Prim2SF x = S754_zero sx /\ Prim2SF y = S754_zero sy).
Proof.
  unfold feq. intros H. apply num_svz_iff in H as [H1 H2].
  destruct (is_nan x) eqn:Hx.
  - left. apply Prim2SF_inj. symmetry in H1.
    apply is_nan_Prim2SF in Hx, H1. congruence.
  - symmetry in H1. specialize (H2 eq_refl).
    destruct (SFkey_inj _ _ (not_nan_Prim2SF _ Hx) (not_nan_Prim2SF _ H1) H2)
      as [E | E]; [left; now apply Prim2SF_inj | now right].
Qed.

Lemma feq_refl x : feq x x = true.
Proof. apply (svz_refl (VNum x)). Qed.

Lemma feq_trans x y z : feq x y = true -> feq y z = true -> feq x z = true.
Proof. apply (svz_trans (VNum x) (VNum y) (VNum z)). Qed.

Lemma feq_zeros x y sx sy :
  Prim2SF x = S754_zero sx -> Prim2SF y = S754_zero sy -> feq x y = true.
Proof.
  intros Hx Hy. unfold feq. rewrite FloatAxioms.eqb_spec, Hx, Hy. reflexivity.
Qed.

Lemma add_feq x y s : feq x y = true -> feq (x + s) (y + s) = true.
Proof.
  intros H. apply feq_cases in H as [-> | (sx & sy & Hx & Hy)].
  - apply feq_refl.
  - destruct (Prim2SF s) as [ss | ss | | ss ms es] eqn:Hs.
    + apply feq_zeros with (sx := match sx, ss with
                                  | true, true => true | _, _ => false end)
                           (sy := match sy, ss with
                                  | true, true => true | _, _ => false end);
        rewrite FloatAxioms.add_spec, ?Hx, ?Hy, Hs;
        [now destruct sx, ss | now destruct sy, ss].
    + replace (y + s)%float with (x + s)%float; [apply feq_refl | ].
      apply Prim2SF_inj. now rewrite !FloatAxioms.add_spec, Hx, Hy, Hs.
    + replace (y + s)%float with (x + s)%float; [apply feq_refl | ].
      apply Prim2SF_inj. now rewrite !FloatAxioms.add_spec, Hx, Hy, Hs.
    + replace (y + s)%float with (x + s)%float; [apply feq_refl | ].
      apply Prim2SF_inj. now rewrite !FloatAxioms.add_spec, Hx, Hy, Hs.
Qed.

Lemma feq_nan x y : feq x y = true -> is_nan x = is_nan y.
Proof. intros H. now apply num_svz_iff in H. Qed.

Lemma num_or_feq x : is_nan x = false -> feq (num_or x zero) x = true.
Proof.
  intros H. unfold num_or, num_truthy. rewrite H, orb_false_r.
  destruct (is_zero x) eqn:E; simpl; [ | apply feq_refl].
  unfold is_zero in E. unfold feq.
  destruct (eqb_nan _ _ E) as [Hx Hz].
  apply orb_true_intro. left. apply eqb_key; [exact Hz | exact Hx | ].
  symmetry. now apply eqb_key.
Qed.

Lemma is_finite_Prim2SF s :
  is_finite s = true ->
  (exists sg, Prim2SF s = S754_zero sg) \/
  (exists sg m e, Prim2SF s = S754_finite sg m e).
Proof.
  unfold is_finite, is_infinity. intros H.
  apply negb_true_iff, orb_false_elim in H as [H1 H2].
  apply not_nan_Prim2SF in H1.
  rewrite FloatAxioms.eqb_spec, abs_spec in H2.
  destruct (Prim2SF s) as [sg | sg | | sg m e]; eauto; [ | now contradiction H1].
  discriminate H2.
Qed.

(** Adding a finite number to a number gives a number. *)
Lemma add_finite_not_nan x s :
  is_nan x = false -> is_finite s = true -> is_nan (x + s)%float = false.
Proof.
  intros Hx Hs. apply not_nan_Prim2SF in Hx.
  apply not_true_is_false. intros H. apply is_nan_Prim2SF in H.
  rewrite FloatAxioms.add_spec in H.
  destruct (is_finite_Prim2SF s Hs) as [[sg E] | (sg & m & e & E)];
    rewrite E in H; destruct (Prim2SF x) as [sx | sx | | sx mx ex];
    try discriminate H; try (now contradiction Hx);
    try (destruct sx, sg; discriminate H).
  unfold SF64add, SFadd in H.
  set (z := (cond_Zopp sx _ + cond_Zopp sg _)%Z) in H.
  destruct z as [ | p | p]; simpl in H; try discriminate H;
    unfold binary_round in H; destruct (shl_align p _ _) as [mz ez];
    now apply binary_round_aux_not_nan in H.
Qed.

Lemma sum_fold_not_nan rows x :
  Forall (fun r => is_finite (sales r) = true) rows ->
  is_nan x = false ->
  is_nan (fold_left (fun s d => (s + sales d)%float) rows x) = false.
Proof.
  intros H. revert x. induction H as [ | r rows Hr _ IH]; intros x Hx;
    [exact Hx | ].
  simpl. apply IH. now apply add_finite_not_nan.
Qed.

(** The sum of finite sales is a number, possibly infinite. *)
Lemma sum_sales_not_nan rows :
  Forall (fun r => is_finite (sales r) = true) rows ->
  is_nan (sum_sales rows) = false.
Proof. intros H. now apply sum_fold_not_nan. Qed.

Lemma running_fold_feq rows acc x :
  Forall (fun r => is_finite (sales r) = true) rows ->
  is_nan x = false ->
  feq (match acc with Some y => y | None => zero end) x = true ->
  feq (match fold_left running rows acc with Some y => y | None => zero end)
      (fold_left (fun s d => (s + sales d)%float) rows x) = true.
Proof.
  intros H. revert acc x. induction H as [ | r rows Hr _ IH]; intros acc x Hx E;
    [exact E | ].
  simpl. apply IH; [now apply add_finite_not_nan | ].
  apply add_feq. destruct acc as [y | ]; [ | exact E].
  apply feq_trans with y; [ | exact E].
  apply num_or_feq. now rewrite (feq_nan _ _ E).
Qed.

Lemma toFixed2_feq x y : feq x y = true -> Num.toFixed2 x = Num.toFixed2 y.
Proof.
  intros H. apply feq_cases in H as [-> | (sx & sy & Hx & Hy)];
    [reflexivity | ].
  unfold Num.toFixed2. now rewrite Hx, Hy.
Qed.

Lemma filter_Forall {A} (P : A -> Prop) (p : A -> bool) l :
  Forall P l -> Forall P (List.filter p l).
Proof.
  induction 1 as [ | a l Ha _ IH]; simpl; [constructor | ].
  destruct (p a); [now constructor | exact IH].
Qed.

(** With finite sales, the total line 98 reports for a name is the
    rounded sum of the sales of the rows with that name. *)
Lemma group_total_is_sum rows k x :
  Forall (fun r => is_finite (sales r) = true) rows ->
  map_get (group_sales rows) k = Some x ->
  round2 x = round2 (sum_sales (named k rows)).
Proof.
  intros H E. unfold round2. f_equal. f_equal. apply toFixed2_feq.
  unfold group_sales in E. rewrite group_fold_lookup in E. simpl in E.
  assert (F := running_fold_feq (named k rows) None zero
                 (filter_Forall _ _ _ H) eq_refl eq_refl).
  now rewrite E in F.
Qed.

(** ** Totals per time slot *)

Lemma sum_sales_app rows r :
  sum_sales (rows ++ [r]) = (sum_sales rows + sales r)%float.
Proof. unfold sum_sales. now rewrite fold_left_app. Qed.

Lemma recognised_false r slot :
  recognised r = false -> In slot timeSlots ->
  strict_eq (Time_of_Day r) (VStr slot) = false.
Proof.
  unfold recognised. intros H Hin.
  destruct (strict_eq (Time_of_Day r) (VStr slot)) eqn:E; [ | reflexivity].
  rewrite <- H. symmetry. apply existsb_exists. now exists slot.
Qed.

Lemma in_slot_skip slot pre r post :
  strict_eq (Time_of_Day r) (VStr slot) = false ->
  in_slot slot (pre ++ r :: post) = in_slot slot (pre ++ post).
Proof.
  intros H. unfold in_slot. rewrite !List.filter_app. simpl. now rewrite H.
Qed.

Lemma in_slot_recognised slot rows :
  In slot timeSlots ->
  in_slot slot (List.filter recognised rows) = in_slot slot rows.
Proof.
  intros Hin. unfold in_slot.
  induction rows as [ | r rows IH]; [reflexivity | ]. simpl.
  destruct (recognised r) eqn:E; simpl; [now rewrite IH | ].
  now rewrite (recognised_false _ _ E Hin).
Qed.

Lemma strict_eq_labelled slot r :
  strict_eq (Time_of_Day r) (VStr slot) = labelled slot r.
Proof. unfold labelled. now destruct (Time_of_Day r). Qed.

Lemma in_slot_labelled slot rows : in_slot slot rows = labelled_rows slot rows.
Proof.
  unfold in_slot, labelled_rows. apply filter_ext. intros r.
  apply strict_eq_labelled.
Qed.

Lemma slot_sum_from_fold slot rows acc :
  fold_left (fun s d => (s + sales d)%float) (in_slot slot rows) acc
  = slot_sum_from acc slot rows.
Proof.
  revert acc. induction rows as [ | r rows IH]; intros acc; [reflexivity | ].
  simpl. rewrite strict_eq_labelled.
  destruct (labelled slot r); simpl; apply IH.
Qed.

Lemma slot_sum_in_slot slot rows :
  sum_sales (in_slot slot rows) = slot_sum slot rows.
Proof. apply slot_sum_from_fold. Qed.

Lemma slot_sum_from_app slot l l' acc :
  slot_sum_from acc slot (l ++ l')
  = slot_sum_from (slot_sum_from acc slot l) slot l'.
Proof.
  revert acc. induction l as [ | r l IH]; intros acc; [reflexivity | ].
  simpl. apply IH.
Qed.

(** C6, as amended: each entry of [salesByTime] is the sum of the sales
    of the rows labelled with its slot (a row so labelled adds its amount
    to that sum), rounded to 2 decimals, so a row with an unrecognised
    label changes no entry wherever it stands, while its amount is added
    into [totalSales] after those of the rows before it.  (The sum of the
    entries is not bounded by [totalSales].) *)
Theorem unrecognised_rows_only_in_total
    (pre post : list Transaction) (r : Transaction) :
  recognised r = false ->
  (forall rows : list Transaction,
      salesByTime rows
      = [{| slot_name := "Morning";
            Sales := round2 (slot_sum "Morning" rows) |};
         {| slot_name := "Afternoon";
            Sales := round2 (slot_sum "Afternoon" rows) |};
         {| slot_name := "Night";
            Sales := round2 (slot_sum "Night" rows) |}]) /\
  (forall (slot : string) (r' : Transaction),
      labelled slot r' = true ->
      slot_sum slot (pre ++ [r']) = (slot_sum slot pre + sales r')%float) /\
  (forall slot : string,
      In slot timeSlots ->
      slot_sum slot (pre ++ r :: post) = slot_sum slot (pre ++ post)) /\
  salesByTime (pre ++ r :: post) = salesByTime (pre ++ post) /\
  salesByTime (List.filter recognised (pre ++ r :: post)) =
    salesByTime (pre ++ r :: post) /\
  totalSales (pre ++ [r]) = (totalSales pre + sales r)%float /\
  totalSales (pre ++ r :: post)
  = fold_left (fun s d => (s + sales d)%float) post
      (totalSales pre + sales r)%float.
Proof.
  intros H.
  split; [ | split; [ | split; [ | split; [ | split; [ | split]]]]].
  - intros rows. unfold salesByTime. simpl.
    now rewrite !slot_sum_in_slot.
  - intros slot r' Hl. unfold slot_sum. rewrite slot_sum_from_app. simpl.
    now rewrite Hl.
  - intros slot Hin. rewrite <- !slot_sum_in_slot.
    now rewrite in_slot_skip by now apply recognised_false.
  - unfold salesByTime. apply map_ext_in. intros slot Hin.
    now rewrite in_slot_skip by now apply recognised_false.
  - unfold salesByTime. apply map_ext_in. intros slot Hin.
    now rewrite in_slot_recognised.
  - apply sum_sales_app.
  - unfold totalSales, sum_sales. now rewrite fold_left_app.
Qed.

Lemma unrecognised_rows_only_in_total_witness :
  let r := sale 3 1 "Latte" "t9" "Evening" in
  let pre := [sale 5 1 "Latte" "t1" "Morning"] in
  let post := [sale 2 1 "Mocha" "t3" "Morning"] in
  recognised r = false /\
  salesByTime (pre ++ r :: post)
  = [{| slot_name := "Morning"; Sales := 7 |};
     {| slot_name := "Afternoon"; Sales := 0 |};
     {| slot_name := "Night"; Sales := 0 |}] /\
  salesByTime (pre ++ r :: post) = salesByTime (pre ++ post) /\
  totalSales (pre ++ r :: post) = 10%float.
Proof.
  split; [reflexivity | ].
  destruct (unrecognised_rows_only_in_total
              [sale 5 1 "Latte" "t1" "Morning"]
              [sale 2 1 "Mocha" "t3" "Morning"]
              (sale 3 1 "Latte" "t9" "Evening") eq_refl)
    as (H1 & _ & _ & H2 & _ & _ & H3).
  split; [rewrite H1; vm_compute; reflexivity | ].
  split; [exact H2 | ]. rewrite H3. vm_compute. reflexivity.
Defined.

(** C6 fails as stated.  One Morning row of 0.125 makes the entries sum
    to 0.13, above the total of 0.125 (rounding up); a negative row with
    an unrecognised label lowers the total only; and sums taken in another
    order differ (1e16 + 1 + 1 is 1e16, but 1e16 + 2 is not). *)
Lemma slot_sum_exceeds_total :
  ~ (forall rows : list Transaction,
        (slot_total (salesByTime rows) <=? totalSales rows)%float = true) /\
  (let rows := [sale 0.125 1 "Latte" "t1" "Morning"] in
   slot_total (salesByTime rows) = Number (VStr "0.13") /\
   totalSales rows = 0.125%float) /\
  (let rows := [sale 5 1 "Latte" "t1" "Morning";
                sale (-3) 1 "Latte" "t2" "Evening"] in
   slot_total (salesByTime rows) = 5%float /\ totalSales rows = 2%float) /\
  (let rows := [sale 1e16 1 "Latte" "t1" "Morning";
                sale 1 1 "Latte" "t2" "Afternoon";
                sale 1 1 "Latte" "t3" "Afternoon"] in
   slot_total (salesByTime rows) = 10000000000000002%float /\
   totalSales rows = 1e16%float).
Proof.
  split; [ | repeat split; vm_compute; reflexivity].
  intros H. specialize (H [sale 0.125 1 "Latte" "t1" "Morning"]).
  vm_compute in H. discriminate H.
Qed.

(** ** The average *)

Lemma new_Set_nil l : new_Set l = [] -> l = [].
Proof. intros H. now apply fold_set_add_nil in H. Qed.

Lemma count_ids_zero rows : count_ids rows = O <-> rows = [].
Proof.
  unfold count_ids. split.
  - intros H. apply length_zero_iff_nil, new_Set_nil in H.
    now destruct rows.
  - now intros ->.
Qed.

(** C9, as amended: [avgValue] is [totalSales / totalTransactions] when
    there is a transaction and 0 when there is none, which happens exactly
    on the empty subset, where [totalSales] is 0 too: nothing is divided
    by zero.  [avgValue] is NaN only when [totalSales] is NaN, which no
    subset of finite sales produces (counts stay below 2^53).  The average
    of the per-slot table is the same function of the slot's rows. *)
Theorem avgValue_guarded (rows : list Transaction) :
  (totalTransactions rows = O <-> rows = []) /\
  (totalTransactions rows = O ->
   totalSales rows = zero /\ avgValue rows = zero) /\
  (totalTransactions rows <> O ->
   avgValue rows
   = (totalSales rows / Dec.of_nat (totalTransactions rows))%float) /\
  (Z.of_nat (totalTransactions rows) < 2 ^ 53 ->
   is_nan (avgValue rows) = true -> is_nan (totalSales rows) = true) /\
  (Z.of_nat (totalTransactions rows) < 2 ^ 53 ->
   Forall (fun r => is_finite (sales r) = true) rows ->
   is_nan (avgValue rows) = false) /\
  (forall slot : string,
      slotMetrics rows slot
      = (totalSales (in_slot slot rows),
         totalTransactions (in_slot slot rows),
         avgValue (in_slot slot rows))).
Proof.
  assert (N : Z.of_nat (totalTransactions rows) < 2 ^ 53 ->
              is_nan (avgValue rows) = true ->
              is_nan (totalSales rows) = true).
  { unfold avgValue, guarded_avg.
    destruct (totalTransactions rows) as [ | n] eqn:E; [discriminate | ].
    intros Hb. apply div_count_nan; [lia | exact Hb]. }
  split; [apply count_ids_zero | ].
  split; [ | split; [ | split; [exact N | split]]].
  - intros H. apply count_ids_zero in H. subst rows. now split.
  - unfold avgValue, guarded_avg.
    destruct (totalTransactions rows); [now intros [] | reflexivity].
  - intros Hb Hf. apply not_true_is_false. intros H.
    apply (N Hb) in H. unfold totalSales in H.
    now rewrite (sum_sales_not_nan rows Hf) in H.
  - reflexivity.
Qed.

Lemma avgValue_guarded_witness :
  let rows := [sale 5 1 "Latte" "t1" "Morning";
               sale 3 1 "Latte" "t1" "Morning";
               sale 10 6 "Espresso" "t2" "Night"] in
  totalTransactions rows = 2%nat /\
  avgValue rows = 9%float /\
  is_nan (avgValue rows) = false.
Proof.
  split; [reflexivity | ].
  set (rows := [sale 5 1 "Latte" "t1" "Morning";
                sale 3 1 "Latte" "t1" "Morning";
                sale 10 6 "Espresso" "t2" "Night"]).
  destruct (avgValue_guarded rows) as (_ & _ & H & _ & F & _).
  split.
  - rewrite H by discriminate. vm_compute. reflexivity.
  - apply F; [vm_compute; reflexivity | repeat constructor].
Defined.

(** C9 fails as stated: the cells ["Infinity"] and ["-Infinity"] give two
    transactions whose total, and so whose average, is NaN. *)
Lemma avgValue_can_be_nan :
  ~ (forall rows : list Transaction, is_nan (avgValue rows) = false) /\
  option_map (fun ts => let f := filtered ts "All" 1 12 in
                        (totalTransactions f, avgValue f))
    (data infinite_sheet) = Some (2%nat, nan).
Proof.
  split; [ | vm_compute; reflexivity].
  intros H.
  specialize (H [sale infinity 1 "" "t1" ""; sale neg_infinity 1 "" "t2" ""]).
  vm_compute in H. discriminate H.
Qed.

(** ** The peak slot *)

Lemma salesByTime_names rows : map slot_name (salesByTime rows) = timeSlots.
Proof. reflexivity. Qed.

Lemma slot_name_truthy rows e :
  In e (salesByTime rows) ->
  js_or (VStr (slot_name e)) (VStr "-") = VStr (slot_name e) /\
  slot_name e <> "-".
Proof.
  intros H. apply (in_map slot_name) in H. rewrite salesByTime_names in H.
  destruct H as [<- | [<- | [<- | []]]]; now split.
Qed.

Lemma after_sales_asym a b : after_sales a b = true -> after_sales b a = false.
Proof. rewrite !after_sales_ltb. apply ltb_asym. Qed.

Lemma salesByTime_not_nan rows :
  Forall (fun r => is_finite (sales r) = true) rows ->
  Forall (fun e => is_nan (Sales e) = false) (salesByTime rows).
Proof.
  intros H. unfold salesByTime. apply List.Forall_forall.
  intros e He. apply in_map_iff in He as (slot & <- & _). simpl.
  apply round2_not_nan, sum_sales_not_nan. now apply filter_Forall.
Qed.

(** C8, as amended: [peakTime] is the first slot, in the fixed order,
    whose entry of [salesByTime] (the slot's sum rounded to 2 decimals) is
    the greatest, provided no entry is NaN, as is the case when all sales
    are finite; it is never the [-] sentinel, which an empty slot list
    alone yields. *)
Theorem peakTime_first_greatest (rows : list Transaction) :
  peakTime rows <> VStr "-" /\
  peak_of [] = VStr "-" /\
  (Forall (fun r => is_finite (sales r) = true) rows ->
   Forall (fun e => is_nan (Sales e) = false) (salesByTime rows)) /\
  (Forall (fun e => is_nan (Sales e) = false) (salesByTime rows) ->
   exists pre e post,
     salesByTime rows = pre ++ e :: post /\
     peakTime rows = VStr (slot_name e) /\
     (forall x, In x (salesByTime rows) ->
                (Sales x <=? Sales e)%float = true) /\
     (forall x, In x pre -> (Sales x <? Sales e)%float = true)).
Proof.
  split; [ | split; [reflexivity | split; [apply salesByTime_not_nan | ]]].
  - unfold peakTime, peak_of.
    destruct (js_sort after_sales (salesByTime rows)) as [ | e tl] eqn:E.
    + apply (f_equal (@length _)) in E. rewrite js_sort_length in E.
      discriminate E.
    + assert (Hin : In e (salesByTime rows))
        by (apply (js_sort_In after_sales); rewrite E; now left).
      destruct (slot_name_truthy _ _ Hin) as [-> Hn]. congruence.
  - intros Hok. unfold peakTime, peak_of.
    destruct (salesByTime rows) as [ | a l] eqn:El; [discriminate El | ].
    destruct (js_sort_head after_sales after_sales_asym
                (fun e => is_nan (Sales e) = false)) with (a := a) (l := l)
      as (pre & h & post & tl & E & S & M & P); [ | exact Hok | ].
    { intros x y z Hx Hy Hz. rewrite !after_sales_ltb.
      now apply ltb_ntrans. }
    exists pre, h, post. rewrite S.
    assert (Hin : In h (salesByTime rows)).
    { rewrite El, E. apply in_or_app. right. now left. }
    destruct (slot_name_truthy _ _ Hin) as [-> _].
    split; [exact E | ]. split; [reflexivity | ].
    rewrite List.Forall_forall in Hok. split.
    + intros x Hx.
      apply ltb_false_leb; [apply Hok; now rewrite <- El | now apply Hok | ].
      rewrite <- after_sales_ltb. now apply M.
    + intros x Hx. rewrite <- after_sales_ltb. now apply P.
Qed.

Lemma peakTime_first_greatest_witness :
  let rows := [sale 5 1 "Latte" "t1" "Afternoon";
               sale 5 1 "Latte" "t2" "Night"] in
  exists pre e post,
    salesByTime rows = pre ++ e :: post /\
    peakTime rows = VStr (slot_name e) /\
    (forall x, In x (salesByTime rows) ->
               (Sales x <=? Sales e)%float = true) /\
    (forall x, In x pre -> (Sales x <? Sales e)%float = true).
Proof.
  destruct (peakTime_first_greatest
              [sale 5 1 "Latte" "t1" "Afternoon";
               sale 5 1 "Latte" "t2" "Night"]) as (_ & _ & F & H).
  apply H, F. repeat constructor.
Defined.

(** C8 fails as stated: Morning sells 1 and Afternoon 1.001953125; both
    entries round to 1, so the peak is Morning, the slot with the smaller
    sum. *)
Lemma peakTime_not_greatest_sum :
  ~ (forall (rows : list Transaction) (s s' : string),
        peakTime rows = VStr s -> In s' timeSlots ->
        (sum_sales (in_slot s' rows) <=? sum_sales (in_slot s rows))%float
        = true) /\
  (let rows := [sale 1 1 "Latte" "t1" "Morning";
                sale 1.001953125 1 "Latte" "t2" "Afternoon"] in
   peakTime rows = VStr "Morning" /\
   sum_sales (in_slot "Morning" rows) = 1%float /\
   sum_sales (in_slot "Afternoon" rows) = 1.001953125%float /\
   map Sales (salesByTime rows) = [1; 1; 0]%float).
Proof.
  split; [ | repeat split; vm_compute; reflexivity].
  intros H.
  specialize (H [sale 1 1 "Latte" "t1" "Morning";
                 sale 1.001953125 1 "Latte" "t2" "Afternoon"]
                "Morning" "Afternoon" eq_refl ltac:(right; now left)).
  vm_compute in H. discriminate H.
Qed.

(** ** The ranking *)

Lemma Sorted_weaken {A} (R R' : A -> A -> Prop) l :
  (forall x y, R x y -> R' x y) -> Sorted R l -> Sorted R' l.
Proof.
  intros H. induction 1 as [ | a l _ IH Ha]; constructor; [exact IH | ].
  destruct Ha; constructor. now apply H.
Qed.

Lemma StronglySorted_weaken {A} (ok : A -> Prop) (R R' : A -> A -> Prop) l :
  (forall x y, ok x -> ok y -> R x y -> R' x y) ->
  Forall ok l -> StronglySorted R l -> StronglySorted R' l.
Proof.
  intros H Hok. induction 1 as [ | a l _ IH Ha]; [constructor | ].
  inversion Hok as [ | ? ? Oa Ol]; subst.
  constructor; [now apply IH | ].
  rewrite List.Forall_forall in *. intros x Hx. apply H; auto.
Qed.

Lemma StronglySorted_firstn {A} (R : A -> A -> Prop) n l :
  StronglySorted R l -> StronglySorted R (firstn n l).
Proof.
  intros H. revert n. induction H as [ | a l _ IH Ha]; intros n.
  - rewrite firstn_nil. constructor.
  - destruct n as [ | n]; [constructor | ]. simpl.
    constructor; [apply IH | ].
    rewrite List.Forall_forall in *. intros x Hx. apply Ha.
    now apply firstn_In with n.
Qed.

Lemma StronglySorted_before {A} (R : A -> A -> Prop) pre e post :
  StronglySorted R (pre ++ e :: post) -> Forall (fun x => R x e) pre.
Proof.
  induction pre as [ | a pre IH]; intros H; [constructor | ].
  inversion H as [ | ? ? Hs Ha]; subst. constructor; [ | now apply IH].
  rewrite List.Forall_forall in Ha. apply Ha.
  apply in_or_app. right. now left.
Qed.

Lemma after_total_asym a b : after_total a b = true -> after_total b a = false.
Proof. rewrite !after_total_ltb. apply ltb_asym. Qed.

Lemma group_sales_keys rows :
  map fst (group_sales rows) = new_Set (map coffee_name rows).
Proof. apply (group_fold_keys rows []). Qed.

Lemma group_sales_lookup rows k :
  map_get (group_sales rows) k = fold_left running (named k rows) None.
Proof. apply (group_fold_lookup rows [] k). Qed.

Lemma ranking_length rows :
  length (ranking rows) = length (new_Set (map coffee_name rows)).
Proof.
  unfold ranking. rewrite js_sort_length, rounded_entries_length.
  now rewrite <- group_sales_keys, length_map.
Qed.

Lemma ranking_names rows :
  Permutation (map name (ranking rows)) (new_Set (map coffee_name rows)).
Proof.
  unfold ranking. rewrite (js_sort_perm after_total).
  rewrite <- group_sales_keys. unfold rounded_entries. rewrite map_map.
  erewrite map_ext; [reflexivity | ]. now intros [k x].
Qed.

Lemma ranking_strongly rows :
  Forall (fun e => is_nan (total e) = false) (ranking rows) ->
  StronglySorted (fun a b => after_total a b = false) (ranking rows).
Proof.
  intros H. apply sorted_strongly with (ok := fun e => is_nan (total e) = false).
  - intros a b c Ha Hb Hc. rewrite !after_total_ltb. now apply ltb_ntrans.
  - exact H.
  - apply js_sort_sorted, after_total_asym.
Qed.

(** C7, as amended: [top3Overall] holds the first 3 entries of the
    ranking, which has one entry per distinct coffee name (in encounter
    order before sorting) whose total is the name's running sum of sales
    rounded to 2 decimals, the sum of the sales of the rows with that name
    when all sales are finite.  So its length is the number of distinct
    names, or 3 if there are more.  When no rounded total is NaN, as is the
    case when all sales are finite, the entries are sorted on these rounded
    totals, greatest first, entries with equal rounded totals keeping
    their encounter order; the ranking is the only arrangement of the
    entries that is so, and the totals of [top3Overall] never increase.
    (With a NaN total the comparator is not consistent and the order is
    left to the implementation.) *)
Theorem top3Overall_rounds_then_sorts (rows : list Transaction) :
  let groups := group_sales rows in
  let entries := rounded_entries groups in
  map fst groups = new_Set (map coffee_name rows) /\
  (forall k, map_get groups k = fold_left running (named k rows) None) /\
  Permutation (ranking rows) entries /\
  top3Overall rows = firstn 3 (ranking rows) /\
  length (top3Overall rows)
  = Nat.min 3 (length (new_Set (map coffee_name rows))) /\
  (Forall (fun e => is_nan (total e) = false) (ranking rows) ->
   Sorted (fun a b => (total a <? total b)%float = false) (ranking rows) /\
   (forall v : float,
       List.filter (fun e => (total e =? v)%float) (ranking rows)
       = List.filter (fun e => (total e =? v)%float) entries) /\
   (forall l : list Ranked,
       Permutation l entries ->
       Sorted (fun a b => (total a <? total b)%float = false) l ->
       (forall v : float,
           List.filter (fun e => (total e =? v)%float) l
           = List.filter (fun e => (total e =? v)%float) entries) ->
       l = ranking rows) /\
   StronglySorted (fun a b => (total b <=? total a)%float = true)
     (top3Overall rows)) /\
  (Forall (fun r => is_finite (sales r) = true) rows ->
   forall e, In e (ranking rows) ->
             total e = round2 (sum_sales (named (name e) rows)) /\
             is_nan (total e) = false).
Proof.
  cbv zeta. split; [apply group_sales_keys | ].
  split; [apply group_sales_lookup | ].
  split; [apply js_sort_perm | ].
  split; [reflexivity | ].
  split; [unfold top3Overall; now rewrite length_firstn, ranking_length | ].
  assert (St : forall v : float,
             List.filter (fun e => (total e =? v)%float) (ranking rows)
             = List.filter (fun e => (total e =? v)%float)
                 (rounded_entries (group_sales rows))).
  { intros v. apply js_sort_filter. intros a b Ha Hab.
    rewrite after_total_ltb in Hab. now apply ltb_neq with (total a). }
  assert (Nt : forall a b c : Ranked,
             is_nan (total a) = false -> is_nan (total b) = false ->
             is_nan (total c) = false ->
             after_total a b = false -> after_total b c = false ->
             after_total a c = false).
  { intros a b c Ha Hb Hc. rewrite !after_total_ltb. now apply ltb_ntrans. }
  split.
  - intros Hok. split; [ | split; [exact St | split]].
    + apply Sorted_weaken with (R := fun a b => after_total a b = false).
      * intros x y. now rewrite after_total_ltb.
      * apply js_sort_sorted, after_total_asym.
    + intros l P Hs Hl.
      assert (P' : Permutation l (ranking rows)).
      { rewrite P. symmetry. apply js_sort_perm. }
      assert (Ol : Forall (fun e => is_nan (total e) = false) l).
      { rewrite List.Forall_forall in *. intros x Hx. apply Hok.
        now apply (Permutation_in _ P'). }
      apply (stable_sorted_unique after_total after_total_asym
               (fun e => is_nan (total e) = false)
               (fun x e => (total e =? total x)%float)).
      * intros a b Oa Ob. rewrite !after_total_ltb. intros H1 H2.
        now apply ltb_tied.
      * exact Ol.
      * exact P'.
      * apply sorted_strongly
          with (ok := fun e => is_nan (total e) = false);
          [exact Nt | exact Ol | ].
        apply Sorted_weaken
          with (R := fun a b => (total a <? total b)%float = false);
          [ | exact Hs].
        intros x y. now rewrite after_total_ltb.
      * now apply ranking_strongly.
      * intros x _. now rewrite Hl, St.
    + apply StronglySorted_firstn.
      apply StronglySorted_weaken
        with (ok := fun e => is_nan (total e) = false)
             (R := fun a b => after_total a b = false);
        [ | exact Hok | now apply ranking_strongly].
      intros x y Hx Hy. rewrite after_total_ltb. now apply ltb_false_leb.
  - intros Hf e He. apply js_sort_In in He. unfold rounded_entries in He.
    apply in_map_iff in He as ([k x] & <- & Hx). simpl.
    assert (E : round2 x = round2 (sum_sales (named k rows)))
      by (apply group_total_is_sum; [exact Hf | now apply group_sales_In_get]).
    split; [exact E | ]. rewrite E.
    apply round2_not_nan, sum_sales_not_nan. now apply filter_Forall.
Qed.

Lemma top3Overall_rounds_then_sorts_witness :
  top3Overall menu
  = [{| name := VStr "Espresso"; total := 10 |};
     {| name := VStr "Latte"; total := 8 |};
     {| name := VStr "Mocha"; total := 8 |}] /\
  StronglySorted (fun a b => (total b <=? total a)%float = true)
    (top3Overall menu) /\
  (forall l : list Ranked,
      Permutation l (rounded_entries (group_sales menu)) ->
      Sorted (fun a b => (total a <? total b)%float = false) l ->
      (forall v : float,
          List.filter (fun e => (total e =? v)%float) l
          = List.filter (fun e => (total e =? v)%float)
              (rounded_entries (group_sales menu))) ->
      l = ranking menu).
Proof.
  split; [vm_compute; reflexivity | ].
  destruct (top3Overall_rounds_then_sorts menu)
    as (_ & _ & _ & _ & _ & S & F).
  assert (Hok : Forall (fun e => is_nan (total e) = false) (ranking menu)).
  { apply List.Forall_forall. intros e He.
    apply F; [repeat constructor | exact He]. }
  destruct (S Hok) as (_ & _ & U & T). split; [exact T | exact U].
Defined.

(** C7 fails as stated: sorting the sums and then rounding the first
    three is not what the code does.  With A at 1 and B at 1.001953125 the
    sums rank B first, but both round to 1, and the code, which sorts the
    rounded totals, keeps A first.  Nor is a group's total always the sum
    of its sales: after Infinity and -Infinity the running sum is NaN,
    which [|| 0] replaces by 0 before 5 is added. *)
Lemma top3Overall_not_sorted_then_rounded :
  ~ (forall rows : list Transaction,
        top3Overall rows = top3_sorted_then_rounded rows) /\
  (let rows := [sale 1 1 "A" "t1" "Morning";
                sale 1.001953125 1 "B" "t2" "Morning"] in
   top3Overall rows
   = [{| name := VStr "A"; total := 1 |};
      {| name := VStr "B"; total := 1 |}] /\
   top3_sorted_then_rounded rows
   = [{| name := VStr "B"; total := 1 |};
      {| name := VStr "A"; total := 1 |}]) /\
  (let rows := [sale infinity 1 "A" "t1" "Morning";
                sale neg_infinity 1 "A" "t2" "Morning";
                sale 5 1 "A" "t3" "Morning"] in
   top3Overall rows = [{| name := VStr "A"; total := 5 |}] /\
   sum_sales rows = nan).
Proof.
  split; [ | repeat split; vm_compute; reflexivity].
  intros H.
  specialize (H [sale 1 1 "A" "t1" "Morning";
                 sale 1.001953125 1 "B" "t2" "Morning"]).
  vm_compute in H. discriminate H.
Qed.

(** ** Rows without a coffee name *)

Lemma coffeeOptions_truthy data v :
  In v (coffeeOptions data) -> truthy v = true.
Proof.
  unfold coffeeOptions. intros [<- | H]; [reflexivity | ].
  apply js_sort_In, new_Set_In, filter_In in H. tauto.
Qed.

Lemma svz_empty_name k : same_value_zero k (VStr "") = true -> k = VStr "".
Proof.
  destruct k; simpl; try discriminate.
  intros H. apply String.eqb_eq in H. now subst.
Qed.

Lemma empty_name_group rows r :
  In r rows -> coffee_name r = VStr "" ->
  exists x, In (VStr "", x) (group_sales rows).
Proof.
  intros Hin Hn.
  destruct (running_Some (named (VStr "") rows) None) as [x Hx].
  { intros E. assert (H : In r (named (VStr "") rows)).
    { apply filter_In. split; [exact Hin | ]. rewrite Hn. reflexivity. }
    now rewrite E in H. }
  rewrite <- group_sales_lookup in Hx.
  apply map_get_In in Hx as (k & H1 & H2).
  apply svz_empty_name in H2. subst k. now exists x.
Qed.

Lemma leb_refl x : is_nan x = false -> (x <=? x)%float = true.
Proof.
  intros H. apply ltb_false_leb; [exact H | exact H | ].
  destruct (x <? x)%float eqn:E; [ | reflexivity].
  now rewrite (ltb_asym _ _ E) in E.
Qed.

Lemma filter_length_le {A} (p : A -> bool) l :
  (length (List.filter p l) <= length l)%nat.
Proof.
  induction l as [ | a l IH]; simpl; [lia | ].
  destruct (p a); simpl; lia.
Qed.

Lemma filter_all {A} (p : A -> bool) l :
  Forall (fun x => p x = true) l -> List.filter p l = l.
Proof.
  induction 1 as [ | a l Ha _ IH]; [reflexivity | ].
  simpl. now rewrite Ha, IH.
Qed.

(** An entry that at most three entries (itself included) equal or
    exceed is among the first three of the ranking. *)
Lemma ranks_in_top3 rows e :
  Forall (fun e' => is_nan (total e') = false) (ranking rows) ->
  In e (ranking rows) ->
  (length (List.filter (fun e' => (total e <=? total e')%float)
             (ranking rows)) <= 3)%nat ->
  In e (top3Overall rows).
Proof.
  intros Hok Hin Hc. unfold top3Overall.
  assert (Hs := ranking_strongly rows Hok).
  destruct (in_split _ _ Hin) as (pre & post & E). rewrite E in *.
  assert (He : is_nan (total e) = false).
  { rewrite List.Forall_forall in Hok. apply Hok.
    apply in_or_app. right. now left. }
  assert (Hpre : Forall (fun e' => (total e <=? total e')%float = true) pre).
  { apply StronglySorted_before in Hs.
    rewrite List.Forall_forall in *. intros x Hx.
    apply ltb_false_leb; [ | exact He | ].
    - apply Hok. apply in_or_app. now left.
    - rewrite <- after_total_ltb. now apply Hs. }
  rewrite List.filter_app in Hc. simpl in Hc.
  rewrite (leb_refl _ He), (filter_all _ _ Hpre), length_app in Hc.
  simpl in Hc. rewrite firstn_app. apply in_or_app. right.
  destruct (3 - length pre)%nat as [ | n] eqn:En; [lia | now left].
Qed.

Lemma split_unique {A} (e : A) l1 l2 l1' l2' :
  l1 ++ e :: l2 = l1' ++ e :: l2' -> ~ In e l1 -> ~ In e l1' -> l1 = l1'.
Proof.
  revert l1'. induction l1 as [ | a l1 IH]; intros [ | b l1'] E H H';
    simpl in *.
  - reflexivity.
  - injection E as -> _. exfalso. apply H'. now left.
  - injection E as -> _. exfalso. apply H. now left.
  - injection E as -> E. f_equal. apply IH; [exact E | tauto | tauto].
Qed.

Lemma StronglySorted_after {A} (R : A -> A -> Prop) pre e post :
  StronglySorted R (pre ++ e :: post) -> Forall (R e) post.
Proof.
  induction pre as [ | a pre IH]; simpl; intros H;
    inversion H as [ | ? ? Hs Ha]; subst; [exact Ha | now apply IH].
Qed.

Lemma filter_perm_length {A} (p : A -> bool) l l' :
  Permutation l l' -> length (List.filter p l) = length (List.filter p l').
Proof.
  induction 1 as [ | x l l' _ IH | x y l | l l' l'' _ IH1 _ IH2]; simpl.
  - reflexivity.
  - destruct (p x); simpl; now rewrite IH.
  - destruct (p x), (p y); reflexivity.
  - now rewrite IH1.
Qed.

Lemma filter_split_length {A} (p q : A -> bool) l :
  Forall (fun x => p x = negb (q x)) l ->
  length l = (length (List.filter p l) + length (List.filter q l))%nat.
Proof.
  induction 1 as [ | x l Hx _ IH]; [reflexivity | ].
  simpl. rewrite Hx. destruct (q x); simpl; lia.
Qed.

Lemma firstn_position {A} n (pre post : list A) e :
  ~ In e pre -> (In e (firstn n (pre ++ e :: post)) <-> (length pre < n)%nat).
Proof.
  intros H. rewrite firstn_app. split.
  - intros Hin. apply in_app_or in Hin as [Hin | Hin].
    + exfalso. apply H. now apply firstn_In with n.
    + destruct (n - length pre)%nat eqn:E; [now destruct Hin | lia].
  - intros Hl. apply in_or_app. right.
    destruct (n - length pre)%nat eqn:E; [lia | now left].
Qed.

Lemma ltb_irrefl x : (x <? x)%float = false.
Proof.
  destruct (x <? x)%float eqn:E; [ | reflexivity].
  now rewrite (ltb_asym _ _ E) in E.
Qed.

Lemma eqb_same x : is_nan x = false -> (x =? x)%float = true.
Proof. intros H. now apply eqb_key. Qed.

Lemma not_less_cases x e :
  is_nan x = false -> is_nan e = false ->
  (x <? e)%float = false -> (e <? x)%float = negb (x =? e)%float.
Proof.
  intros Hx He H.
  destruct (e <? x)%float eqn:G, (x =? e)%float eqn:T; try reflexivity.
  - now rewrite (ltb_neq e x e G (eqb_same e He)) in T.
  - now rewrite (ltb_tied x e Hx He H G) in T.
Qed.

Lemma rounded_entries_names m : map name (rounded_entries m) = map fst m.
Proof.
  unfold rounded_entries. rewrite map_map. apply map_ext. now intros [k x].
Qed.

(** The place of an entry in the sorted array: after the entries with a
    greater total and those with an equal total that stood before it. *)
Lemma rank_position (pre post : list Ranked) (e : Ranked) :
  List.NoDup (pre ++ e :: post) ->
  Forall (fun e' => is_nan (total e') = false) (pre ++ e :: post) ->
  exists rpre rpost,
    js_sort after_total (pre ++ e :: post) = rpre ++ e :: rpost /\
    ~ In e rpre /\
    length rpre
    = (length (List.filter (fun e' => (total e <? total e')%float)
                 (pre ++ post))
       + length (List.filter (fun e' => (total e' =? total e)%float) pre))%nat.
Proof.
  intros N Hok.
  set (entries := pre ++ e :: post) in *.
  assert (P := js_sort_perm after_total entries).
  assert (Hin : In e (js_sort after_total entries)).
  { apply js_sort_In. apply in_or_app. right. now left. }
  destruct (in_split _ _ Hin) as (rpre & rpost & E).
  assert (N' : List.NoDup (rpre ++ e :: rpost)).
  { rewrite <- E. apply (Permutation_NoDup (Permutation_sym P) N). }
  assert (Hr : ~ In e rpre).
  { apply NoDup_remove_2 in N'. intros H. apply N'.
    apply in_or_app. now left. }
  assert (Hp : ~ In e pre).
  { apply NoDup_remove_2 in N. intros H. apply N.
    apply in_or_app. now left. }
  assert (Hok' : forall x, In x (rpre ++ e :: rpost) ->
                           is_nan (total x) = false).
  { rewrite List.Forall_forall in Hok. intros x Hx. apply Hok.
    apply (js_sort_In after_total). now rewrite E. }
  assert (He : is_nan (total e) = false)
    by (apply Hok', in_or_app; right; now left).
  assert (S : StronglySorted (fun a b => after_total a b = false)
                (rpre ++ e :: rpost)).
  { rewrite <- E.
    apply js_sort_strongly with (ok := fun e' => is_nan (total e') = false);
      [apply after_total_asym | | exact Hok].
    intros a b c Ha Hb Hc. rewrite !after_total_ltb. now apply ltb_ntrans. }
  assert (Sb := StronglySorted_before _ _ _ _ S).
  assert (Sa := StronglySorted_after _ _ _ _ S).
  rewrite List.Forall_forall in Sb, Sa.
  exists rpre, rpost. split; [exact E | split; [exact Hr | ]].
  rewrite (filter_split_length
             (fun e' => (total e <? total e')%float)
             (fun e' => (total e' =? total e)%float) rpre).
  - f_equal.
    + assert (G : length (List.filter (fun e' => (total e <? total e')%float)
                            (rpre ++ e :: rpost))
                  = length (List.filter (fun e' => (total e <? total e')%float)
                              entries))
        by (rewrite <- E; now apply filter_perm_length).
      unfold entries in G. rewrite !List.filter_app in G. simpl in G.
      rewrite ltb_irrefl, !length_app in G.
      rewrite List.filter_app, length_app.
      replace (List.filter (fun e' => (total e <? total e')%float) rpost)
        with (@nil Ranked) in G; [simpl in G; lia | ].
      symmetry. clear G.
      assert (F : forall x, In x rpost -> (total e <? total x)%float = false)
        by (intros x Hx; rewrite <- after_total_ltb; now apply Sa).
      clear - F. induction rpost as [ | y rpost IH]; [reflexivity | ].
      simpl. rewrite (F y (or_introl eq_refl)).
      apply IH. intros x Hx. apply F. now right.
    + assert (T : List.filter (fun e' => (total e' =? total e)%float)
                    (rpre ++ e :: rpost)
                  = List.filter (fun e' => (total e' =? total e)%float)
                      entries).
      { rewrite <- E. apply js_sort_filter. intros a b Ha Hab.
        rewrite after_total_ltb in Hab. now apply ltb_neq with (total a). }
      unfold entries in T. rewrite !List.filter_app in T. simpl in T.
      rewrite (eqb_same _ He) in T.
      f_equal. apply split_unique in T; [exact T | | ];
        intros H; apply filter_In in H as [H _]; tauto.
  - apply List.Forall_forall. intros x Hx.
    apply not_less_cases; [ | exact He | ].
    + apply Hok', in_or_app. now left.
    + rewrite <- after_total_ltb. now apply Sb.
Qed.

(** C10, as amended: a row whose coffee name resolved to the empty string
    is kept by the ranking.  The empty string is never among the product
    options, but such rows form the group keyed by the empty string, whose
    total is their running sum of sales rounded to 2 decimals (the rounded
    sum of their sales when all sales are finite).  Its entry is in the
    ranking, and it is in [top3Overall] when there are at most 3 names and,
    when no total is NaN, exactly when fewer than 3 entries come before it:
    those with a greater rounded total and those with an equal rounded
    total encountered earlier.  [top3BySlot] is the same ranking of the rows
    labelled with the slot. *)
Theorem empty_name_is_ranked (rows : list Transaction) (r : Transaction) :
  In r rows -> coffee_name r = VStr "" ->
  (forall data : list Transaction, ~ In (VStr "") (coffeeOptions data)) /\
  (forall slot : string,
      top3BySlot rows slot = top3Overall (labelled_rows slot rows)) /\
  (exists (x : float) (pre post : js_map) (e : Ranked),
      group_sales rows = pre ++ (VStr "", x) :: post /\
      fold_left running (named (VStr "") rows) None = Some x /\
      (Forall (fun r' => is_finite (sales r') = true) rows ->
       round2 x = round2 (sum_sales (named (VStr "") rows))) /\
      e = {| name := VStr ""; total := round2 x |} /\
      In e (ranking rows) /\
      (forall e', In e' (ranking rows) -> name e' = VStr "" -> e' = e) /\
      ((length (ranking rows) <= 3)%nat -> In e (top3Overall rows)) /\
      (Forall (fun e' => is_nan (total e') = false) (ranking rows) ->
       (In e (top3Overall rows) <->
        (length (List.filter (fun e' => (total e <? total e')%float)
                   (rounded_entries (pre ++ post)))
         + length (List.filter (fun e' => (total e' =? total e)%float)
                     (rounded_entries pre)) < 3)%nat) /\
       ((length (List.filter (fun e' => (total e <=? total e')%float)
                   (ranking rows)) <= 3)%nat ->
        In e (top3Overall rows)))).
Proof.
  intros Hin Hn. split; [ | split].
  - intros data H. apply coffeeOptions_truthy in H. discriminate H.
  - intros slot. unfold top3BySlot. now rewrite in_slot_labelled.
  - destruct (empty_name_group rows r Hin Hn) as [x Hx].
    destruct (in_split _ _ Hx) as (pre & post & E).
    exists x, pre, post, {| name := VStr ""; total := round2 x |}.
    assert (Hg : map_get (group_sales rows) (VStr "") = Some x)
      by now apply group_sales_In_get.
    assert (Hr : In {| name := VStr ""; total := round2 x |} (ranking rows)).
    { apply js_sort_In. unfold rounded_entries.
      apply in_map_iff. exists (VStr "", x). now split. }
    split; [exact E | ].
    split; [now rewrite <- group_sales_lookup | ].
    split; [intros Hf; now apply group_total_is_sum | ].
    split; [reflexivity | ]. split; [exact Hr | ].
    split; [ | split; [ | intros Hok; split]].
    + intros e' He' Hn'.
      apply js_sort_In in He'. unfold rounded_entries in He'.
      apply in_map_iff in He' as ([k y] & <- & Hy). simpl in Hn'. subst k.
      f_equal. f_equal.
      apply group_sales_In_get in Hy. congruence.
    + intros Hl. unfold top3Overall. now rewrite firstn_all2.
    + assert (Ee : rounded_entries (group_sales rows)
                   = rounded_entries pre
                     ++ {| name := VStr ""; total := round2 x |}
                     :: rounded_entries post).
      { rewrite E. unfold rounded_entries. now rewrite map_app. }
      destruct (rank_position (rounded_entries pre) (rounded_entries post)
                  {| name := VStr ""; total := round2 x |})
        as (rpre & rpost & Er & Hni & Hl).
      * rewrite <- Ee. apply (NoDup_map_inv name).
        rewrite rounded_entries_names, group_sales_keys.
        apply new_Set_NoDup.
      * rewrite <- Ee. rewrite List.Forall_forall in *. intros y Hy.
        apply Hok. now apply js_sort_In.
      * unfold top3Overall, ranking. rewrite Ee, Er.
        rewrite (firstn_position 3 rpre rpost _ Hni), Hl.
        unfold rounded_entries. now rewrite map_app.
    + now apply ranks_in_top3.
Qed.

Lemma empty_name_is_ranked_witness :
  top3Overall unnamed_sales
  = [{| name := VStr "Espresso"; total := 10 |};
     {| name := VStr ""; total := 9 |};
     {| name := VStr "Mocha"; total := 8 |}] /\
  coffeeOptions unnamed_sales
  = [VStr "All"; VStr "Cappuccino"; VStr "Espresso"; VStr "Latte";
     VStr "Mocha"] /\
  exists e, name e = VStr "" /\ total e = 9%float /\
            In e (top3Overall unnamed_sales).
Proof.
  split; [vm_compute; reflexivity | ].
  split; [vm_compute; reflexivity | ].
  destruct (empty_name_is_ranked unnamed_sales (sale 9 1 "" "t2" "Morning"))
    as (_ & _ & x & pre & post & e & _ & _ & _ & _ & Hin & Hu & _ & Hr);
    [right; now left | reflexivity | ].
  assert (E : e = {| name := VStr ""; total := 9 |}).
  { symmetry. apply Hu; [ | reflexivity].
    vm_compute. right. now left. }
  exists e. split; [now rewrite E | ]. split; [now rewrite E | ].
  apply Hr.
  - vm_compute. repeat constructor.
  - rewrite E. vm_compute. lia.
Defined.

(** C10 fails as stated: the group's summed sales ranking in the top
    three is not what decides.  Of four names whose sums differ by less
    than a cent, the rows without a name have the greatest sum, yet every
    total is rounded to 1 before the sort, which keeps the encounter order
    of ties, and the three names met first fill [top3Overall]. *)
Lemma empty_name_greatest_sum_unranked :
  ~ (forall (rows : list Transaction) (r : Transaction),
        In r rows -> coffee_name r = VStr "" ->
        (length (List.filter
                   (fun k => (sum_sales (named (VStr "") rows)
                              <? sum_sales (named k rows))%float)
                   (new_Set (map coffee_name rows))) < 3)%nat ->
        exists e, name e = VStr "" /\ In e (top3Overall rows)) /\
  top3Overall close_sales
  = [{| name := VStr "A"; total := 1 |};
     {| name := VStr "B"; total := 1 |};
     {| name := VStr "C"; total := 1 |}] /\
  map (fun k => sum_sales (named k close_sales))
    (new_Set (map coffee_name close_sales))
  = [1; 1.0009765625; 1.001953125; 1.0029296875]%float.
Proof.
  split; [ | split; vm_compute; reflexivity].
  intros H.
  destruct (H close_sales (sale 1.0029296875 1 "" "t4" "Morning"))
    as (e & Hn & He).
  - do 3 right. now left.
  - reflexivity.
  - vm_compute. lia.
  - vm_compute in He.
    destruct He as [<- | [<- | [<- | []]]]; discriminate Hn.
Qed.

(** * Further properties *)

(** ** The filter controls *)

Lemma leb_not_nan x y :
  (x <=? y)%float = true -> is_nan x = false /\ is_nan y = false.
Proof.
  intros H. split; apply not_true_is_false; intros E.
  - now rewrite (leb_nan_l _ y E) in H.
  - now rewrite (leb_nan_r _ x E) in H.
Qed.

Lemma leb_trans x y z :
  (x <=? y)%float = true -> (y <=? z)%float = true -> (x <=? z)%float = true.
Proof.
  intros H1 H2.
  destruct (leb_not_nan _ _ H1) as [Hx Hy].
  destruct (leb_not_nan _ _ H2) as [_ Hz].
  apply leb_key in H1; [ | assumption | assumption].
  apply leb_key in H2; [ | assumption | assumption].
  apply leb_key; [assumption | assumption | ].
  destruct (fkey x) as [[c1 e1] m1], (fkey y) as [[c2 e2] m2],
    (fkey z) as [[c3 e3] m3].
  unfold key_lt in *. lia.
Qed.

Lemma ltb_leb x y : (x <? y)%float = true -> (x <=? y)%float = true.
Proof.
  intros H. destruct (ltb_nan _ _ H) as [Hx Hy].
  apply ltb_false_leb; [exact Hy | exact Hx | now apply ltb_asym].
Qed.

Lemma Math_min_cases a b :
  is_nan a = false -> is_nan b = false ->
  (Math_min a b = a \/ Math_min a b = b) /\
  (Math_min a b <=? a)%float = true /\ (Math_min a b <=? b)%float = true.
Proof.
  intros Ha Hb. unfold Math_min. rewrite Ha, Hb. simpl.
  destruct (b <? a)%float eqn:E.
  - split; [now right | ]. split; [now apply ltb_leb | now apply leb_refl].
  - assert (L : (a <=? b)%float = true) by now apply ltb_false_leb.
    destruct (is_neg_zero b && is_pos_zero a) eqn:Z.
    + split; [now right | ]. split; [ | now apply leb_refl].
      apply andb_prop in Z as [Zb Za].
      apply andb_prop in Zb as [Zb _]. apply andb_prop in Za as [Za _].
      unfold is_zero in *.
      apply eqb_key in Zb; [ | exact Hb | reflexivity].
      apply eqb_key in Za; [ | exact Ha | reflexivity].
      apply leb_key; [exact Hb | exact Ha | ]. rewrite Za, Zb.
      unfold key_lt. destruct (fkey zero) as [[c e] m]. lia.
    + split; [now left | ]. split; [now apply leb_refl | exact L].
Qed.

Lemma Math_max_cases a b :
  is_nan a = false -> is_nan b = false ->
  (Math_max a b = a \/ Math_max a b = b) /\
  (a <=? Math_max a b)%float = true /\ (b <=? Math_max a b)%float = true.
Proof.
  intros Ha Hb. unfold Math_max. rewrite Ha, Hb. simpl.
  destruct (a <? b)%float eqn:E.
  - split; [now right | ]. split; [now apply ltb_leb | now apply leb_refl].
  - assert (L : (b <=? a)%float = true) by now apply ltb_false_leb.
    destruct (is_pos_zero b && is_neg_zero a) eqn:Z.
    + split; [now right | ]. split; [ | now apply leb_refl].
      apply andb_prop in Z as [Zb Za].
      apply andb_prop in Zb as [Zb _]. apply andb_prop in Za as [Za _].
      unfold is_zero in *.
      apply eqb_key in Zb; [ | exact Hb | reflexivity].
      apply eqb_key in Za; [ | exact Ha | reflexivity].
      apply leb_key; [exact Ha | exact Hb | ]. rewrite Za, Zb.
      unfold key_lt. destruct (fkey zero) as [[c e] m]. lia.
    + split; [now left | ]. split; [now apply leb_refl | exact L].
Qed.

Lemma onChange_ordered st e :
  months_ordered st -> slider_change e = true -> months_ordered (onChange st e).
Proof.
  intros (H1 & H2 & H3) He.
  destruct e as [v | v | v]; unfold months_ordered, onChange;
    cbn [minMonth maxMonth]; simpl slider_change in He.
  - now repeat split.
  - apply andb_prop in He as [V1 V2].
    destruct (leb_not_nan _ _ V1) as [_ Nv].
    destruct (leb_not_nan _ _ H3) as [Nh _].
    destruct (Math_min_cases _ _ Nv Nh) as (C & L1 & L2).
    split; [ | split; assumption].
    destruct C as [-> | ->]; [exact V1 | ].
    now apply leb_trans with (minMonth st).
  - apply andb_prop in He as [V1 V2].
    destruct (leb_not_nan _ _ V1) as [_ Nv].
    destruct (leb_not_nan _ _ H1) as [_ Nl].
    destruct (Math_max_cases _ _ Nv Nl) as (C & L1 & L2).
    split; [assumption | split; [assumption | ]].
    destruct C as [-> | ->]; [exact V2 | ].
    now apply leb_trans with (maxMonth st).
Qed.

Lemma get_missing d keys : first_present d keys = None -> get d keys = VStr "".
Proof.
  intros H. unfold get. fold present. now rewrite js_find_first_present, H.
Qed.

Lemma changes_ordered es st :
  months_ordered st -> forallb slider_change es = true ->
  months_ordered (fold_left onChange es st).
Proof.
  revert st. induction es as [ | e es IH]; intros st H He; [exact H | ].
  simpl in He. apply andb_prop in He as [He Hes].
  simpl. apply IH; [now apply onChange_ordered | exact Hes].
Qed.

(** X1: whatever the user does with the controls, as long as the two
    range inputs report values from 1 to 12, the start month stays between
    1 and the end month, the end month stays at most 12, and every row
    shown has its month between 1 and 12: a row whose month is 0 (no month
    cell), NaN or beyond 12 is shown in no state. *)
Theorem sliders_keep_months_ordered (es : list control_change) :
  forallb slider_change es = true ->
  months_ordered (after_changes es) /\
  (forall (data : list Transaction) (t : Transaction),
      In t (shown (after_changes es) data) ->
      (1 <=? Monthsort t)%float = true /\ (Monthsort t <=? 12)%float = true) /\
  (forall (data : list Transaction) (d : RawRow) (t : Transaction),
      first_present d month_keys = None -> normalize d = Some t ->
      ~ In t (shown (after_changes es) data)).
Proof.
  intros He.
  assert (H : months_ordered (after_changes es)).
  { apply changes_ordered; [ | exact He]. now repeat split. }
  assert (K : forall data t,
             In t (shown (after_changes es) data) ->
             (1 <=? Monthsort t)%float = true /\
             (Monthsort t <=? 12)%float = true).
  { intros data t Hin. destruct H as (H1 & H2 & H3).
    apply filtered_In in Hin as (_ & _ & L1 & L2).
    split; [now apply leb_trans with (minMonth (after_changes es)) | ].
    now apply leb_trans with (maxMonth (after_changes es)). }
  split; [exact H | split; [exact K | ]].
  intros data d t Hm Hn Hin. apply K in Hin as [Hin _].
  destruct (normalize_total d) as (str & _ & N). rewrite N in Hn.
  injection Hn as <-. simpl in Hin.
  rewrite (get_missing _ _ Hm) in Hin. discriminate Hin.
Qed.

Lemma sliders_keep_months_ordered_witness :
  let es := [ChangeStart "9"; ChangeEnd "4"; ChangeCoffee "Latte";
             ChangeStart "11"] in
  forallb slider_change es = true /\
  months_ordered (after_changes es) /\
  after_changes es = {| coffee := "Latte"; minMonth := 9; maxMonth := 9 |}.
Proof.
  split; [reflexivity | ]. split; [ | reflexivity].
  apply (sliders_keep_months_ordered
           [ChangeStart "9"; ChangeEnd "4"; ChangeCoffee "Latte";
            ChangeStart "11"]).
  reflexivity.
Defined.

(** ** The product options *)

Lemma str_lt_asym a b : str_lt a b = true -> str_lt b a = false.
Proof.
  revert b. induction a as [ | x a IH]; intros [ | y b]; simpl;
    try discriminate; try reflexivity.
  destruct (N.ltb_spec (N_of_ascii x) (N_of_ascii y)) as [L | L].
  - intros _. destruct (N.ltb_spec (N_of_ascii y) (N_of_ascii x)); [lia | reflexivity].
  - destruct (N.ltb_spec (N_of_ascii y) (N_of_ascii x)) as [G | G];
      [discriminate | apply IH].
Qed.

Lemma str_lt_ntrans a b c :
  str_lt a b = false -> str_lt b c = false -> str_lt a c = false.
Proof.
  revert b c. induction a as [ | x a IH]; intros [ | y b] [ | z c]; simpl;
    try discriminate; try reflexivity.
  destruct (N.ltb_spec (N_of_ascii x) (N_of_ascii y)) as [L1 | L1];
    [discriminate | ].
  destruct (N.ltb_spec (N_of_ascii y) (N_of_ascii z)) as [L2 | L2];
    [discriminate | ].
  destruct (N.ltb_spec (N_of_ascii y) (N_of_ascii x)) as [G1 | G1];
    destruct (N.ltb_spec (N_of_ascii z) (N_of_ascii y)) as [G2 | G2];
    destruct (N.ltb_spec (N_of_ascii x) (N_of_ascii z)) as [L3 | L3];
    destruct (N.ltb_spec (N_of_ascii z) (N_of_ascii x)) as [G3 | G3];
    try lia; try reflexivity; intros; try discriminate.
  now apply IH with b.
Qed.

Lemma default_after_asym a b :
  default_after a b = true -> default_after b a = false.
Proof.
  destruct a, b; unfold default_after; try discriminate; try reflexivity;
    apply str_lt_asym.
Qed.

Lemma default_after_ntrans a b c :
  default_after a b = false -> default_after b c = false ->
  default_after a c = false.
Proof.
  destruct a, b, c; unfold default_after; try discriminate;
    try reflexivity; intros H1 H2; exact (str_lt_ntrans _ _ _ H2 H1).
Qed.

Lemma fold_set_add_keeps x l s :
  In x s -> In x (fold_left set_add l s).
Proof.
  revert s. induction l as [ | v l IH]; intros s H; [exact H | ].
  simpl. apply IH. unfold set_add. destruct (set_has s v); [exact H | ].
  apply in_or_app. now left.
Qed.

Lemma fold_set_add_has x l s :
  In x l ->
  exists v, In v (fold_left set_add l s) /\ same_value_zero v x = true.
Proof.
  revert s. induction l as [ | y l IH]; intros s H; [now destruct H | ].
  destruct H as [-> | H]; [ | now apply IH].
  simpl. unfold set_add at 2. destruct (set_has s x) eqn:E.
  - apply existsb_exists in E as (v & Hv & E).
    exists v. split; [now apply fold_set_add_keeps | exact E].
  - exists x. split; [ | apply svz_refl].
    apply fold_set_add_keeps, in_or_app. right. now left.
Qed.

Lemma new_Set_has x l :
  In x l -> exists v, In v (new_Set l) /\ same_value_zero v x = true.
Proof. apply fold_set_add_has. Qed.

Lemma set_add_apart s v : apart s -> apart (set_add s v).
Proof.
  intros H. unfold set_add, set_has.
  destruct (existsb _ s) eqn:E; [exact H | ].
  assert (N : forall a, In a s -> same_value_zero a v = false).
  { intros a Ha. destruct (same_value_zero a v) eqn:Ea; [ | reflexivity].
    assert (existsb (fun v' => same_value_zero v' v) s = true)
      by (apply existsb_exists; eauto).
    congruence. }
  intros a b Ha Hb Hab.
  apply in_app_or in Ha as [Ha | [<- | []]];
    apply in_app_or in Hb as [Hb | [<- | []]].
  - now apply H.
  - rewrite (N a Ha) in Hab. discriminate.
  - apply svz_sym in Hab. rewrite (N b Hb) in Hab. discriminate.
  - reflexivity.
Qed.

Lemma fold_set_add_apart l s : apart s -> apart (fold_left set_add l s).
Proof.
  revert s. induction l as [ | v l IH]; intros s H; [exact H | ].
  simpl. now apply IH, set_add_apart.
Qed.

Lemma new_Set_apart l : apart (new_Set l).
Proof. apply fold_set_add_apart. now intros a b []. Qed.

(** X2: the product options start with [All]; the options after it are
    in ascending order of their text, hold no value twice, are truthy
    names of the data, and every truthy name of the data is among them (up
    to SameValueZero). *)
Theorem coffeeOptions_sorted_distinct (data : list Transaction) :
  exists names,
    coffeeOptions data = VStr "All" :: names /\
    StronglySorted
      (fun a b => str_lt (to_String b) (to_String a) = false) names /\
    List.NoDup names /\
    (forall a b, In a names -> In b names ->
                 same_value_zero a b = true -> a = b) /\
    (forall v, In v names ->
               truthy v = true /\ exists r, In r data /\ coffee_name r = v) /\
    (forall r, In r data -> truthy (coffee_name r) = true ->
               exists v, In v names /\ same_value_zero v (coffee_name r) = true).
Proof.
  unfold coffeeOptions.
  set (s := new_Set (List.filter truthy (map coffee_name data))).
  exists (js_sort default_after s). split; [reflexivity | ].
  assert (Hin : forall v, In v s ->
                truthy v = true /\ exists r, In r data /\ coffee_name r = v).
  { intros v Hv. apply new_Set_In, filter_In in Hv as [Hv Ht].
    split; [exact Ht | ]. apply in_map_iff in Hv as (r & <- & Hr). eauto. }
  split; [ | split; [ | split; [ | split]]].
  - assert (S : StronglySorted (fun a b => default_after a b = false)
                  (js_sort default_after s)).
    { apply js_sort_strongly with (ok := fun _ => True).
      - apply default_after_asym.
      - intros a b c _ _ _. apply default_after_ntrans.
      - apply List.Forall_forall. auto. }
    apply StronglySorted_weaken
      with (ok := fun v => truthy v = true)
           (R := fun a b => default_after a b = false); [ | | exact S].
    + intros x y Hx Hy. now destruct x, y.
    + apply List.Forall_forall. intros v Hv.
      apply js_sort_In in Hv. now apply Hin.
  - apply (Permutation_NoDup (l := s));
      [symmetry; apply js_sort_perm | apply new_Set_NoDup].
  - intros a b Ha Hb. apply js_sort_In in Ha, Hb.
    now apply (new_Set_apart (List.filter truthy (map coffee_name data))).
  - intros v Hv. apply js_sort_In in Hv. now apply Hin.
  - intros r Hr Ht.
    destruct (new_Set_has (coffee_name r)
                (List.filter truthy (map coffee_name data))) as (v & Hv & E).
    { apply filter_In. split; [now apply in_map | exact Ht]. }
    exists v. split; [now apply js_sort_In | exact E].
Qed.

(** ** The product and month filters *)

Lemma filter_twice {A} (p q : A -> bool) l :
  List.filter p (List.filter q l) = List.filter (fun x => q x && p x) l.
Proof.
  induction l as [ | a l IH]; simpl; [reflexivity | ].
  destruct (q a); simpl; [destruct (p a); now rewrite IH | exact IH].
Qed.

Lemma strict_eq_str v s : strict_eq v (VStr s) = true -> v = VStr s.
Proof.
  destruct v; simpl; try discriminate.
  intros H. apply String.eqb_eq in H. now subst.
Qed.

Lemma one_value_set (x : value) l :
  (forall v, In v l -> v = x) -> (length (new_Set l) <= 1)%nat.
Proof.
  intros H.
  assert (N := new_Set_NoDup l).
  assert (I : forall v, In v (new_Set l) -> v = x)
    by (intros v Hv; now apply H, new_Set_In).
  destruct (new_Set l) as [ | a [ | b s]]; simpl; try lia.
  exfalso. inversion N as [ | ? ? Na _]; subst. apply Na.
  rewrite (I a), (I b); simpl; auto.
Qed.

Lemma ranking_name_In rows e :
  In e (ranking rows) -> exists r, In r rows /\ coffee_name r = name e.
Proof.
  intros H. apply (in_map name) in H.
  apply (Permutation_in _ (ranking_names rows)) in H.
  apply new_Set_In, in_map_iff in H as (r & E & Hr). eauto.
Qed.

(** X3: with a product other than [All] chosen, the rows shown are the rows
    of the month range whose name is that very text (a name cell that holds
    a number or a boolean is never shown, whatever is chosen), and the
    ranking has at most one entry, which bears the chosen name. *)
Theorem chosen_coffee_only
    (data : list Transaction) (c : string) (lo hi : float) :
  c <> "All" ->
  filtered data c lo hi
  = List.filter (fun d => strict_eq (coffee_name d) (VStr c))
      (filtered data "All" lo hi) /\
  (forall t, In t (filtered data c lo hi) -> coffee_name t = VStr c) /\
  (forall e, In e (top3Overall (filtered data c lo hi)) -> name e = VStr c) /\
  (length (top3Overall (filtered data c lo hi)) <= 1)%nat.
Proof.
  intros Hc.
  assert (E : String.eqb c "All" = false) by now apply String.eqb_neq.
  assert (K : forall t, In t (filtered data c lo hi) -> coffee_name t = VStr c).
  { intros t Ht. apply filtered_In in Ht as (_ & Ht & _).
    rewrite E in Ht. now apply strict_eq_str. }
  split; [ | split; [exact K | split]].
  - unfold filtered. rewrite filter_twice. apply filter_ext. intros d.
    rewrite E. simpl.
    now destruct (strict_eq (coffee_name d) (VStr c)),
      ((lo <=? Monthsort d)%float && (Monthsort d <=? hi)%float).
  - intros e He. apply firstn_In, ranking_name_In in He as (r & Hr & <-).
    now apply K.
  - unfold top3Overall. rewrite length_firstn, ranking_length.
    etransitivity; [apply Nat.le_min_r | ].
    apply one_value_set with (x := VStr c).
    intros v Hv. apply in_map_iff in Hv as (r & <- & Hr). now apply K.
Qed.

Lemma chosen_coffee_only_witness :
  "Latte" <> "All" /\
  forall t,
    In t (filtered [sale 5 1 "Latte" "t1" "Morning";
                    sale 3 1 "Mocha" "t2" "Night"] "Latte" 1 12) ->
    coffee_name t = VStr "Latte".
Proof.
  split; [discriminate | ].
  apply (chosen_coffee_only
           [sale 5 1 "Latte" "t1" "Morning"; sale 3 1 "Mocha" "t2" "Night"]
           "Latte" 1 12).
  discriminate.
Defined.

(** X4: widening the month range hides no row: what a range shows is what
    it shows of the rows of any wider range, in the same order. *)
Theorem wider_range_keeps_rows
    (data : list Transaction) (c : string) (lo hi lo' hi' : float) :
  (lo' <=? lo)%float = true -> (hi <=? hi')%float = true ->
  filtered (filtered data c lo' hi') c lo hi = filtered data c lo hi /\
  (forall t, In t (filtered data c lo hi) -> In t (filtered data c lo' hi')).
Proof.
  intros Hlo Hhi.
  assert (K : forall t, In t (filtered data c lo hi) ->
                        In t (filtered data c lo' hi')).
  { intros t Ht. apply filtered_In in Ht as (Hd & Hc & L1 & L2).
    apply filter_In. split; [exact Hd | ]. simpl in *. rewrite Hc. simpl.
    apply andb_true_intro.
    split; [now apply leb_trans with lo | now apply leb_trans with hi]. }
  split; [ | exact K].
  unfold filtered. rewrite filter_twice. apply filter_ext. intros d.
  destruct (String.eqb c "All" || strict_eq (coffee_name d) (VStr c));
    [simpl | reflexivity].
  destruct (lo <=? Monthsort d)%float eqn:L1;
    [ | simpl; now rewrite andb_false_r].
  destruct (Monthsort d <=? hi)%float eqn:L2;
    [ | simpl; now rewrite andb_false_r].
  now rewrite (leb_trans _ _ _ Hlo L1), (leb_trans _ _ _ L2 Hhi).
Qed.

Lemma wider_range_keeps_rows_witness :
  let data := [sale 5 3 "Latte" "t1" "Morning"; sale 3 7 "Mocha" "t2" "Night"] in
  filtered (filtered data "All" 1 12) "All" 2 4 = filtered data "All" 2 4.
Proof.
  apply (wider_range_keeps_rows
           [sale 5 3 "Latte" "t1" "Morning"; sale 3 7 "Mocha" "t2" "Night"]
           "All" 2 4 1 12); reflexivity.
Defined.

(** ** The columns the normaliser reads *)

Lemma get_agree d d' keys :
  (forall k, In k keys -> d !! k = d' !! k) -> get d keys = get d' keys.
Proof.
  intros H. unfold get. f_equal. f_equal. apply map_ext_in.
  intros k Hk. unfold prop. now rewrite (H k Hk).
Qed.

Lemma normalize_agree d d' :
  (forall k, In k aliases -> d !! k = d' !! k) -> normalize d = normalize d'.
Proof.
  intros H. unfold normalize.
  rewrite (get_agree d d' sales_keys), (get_agree d d' month_keys),
    (get_agree d d' name_keys), (get_agree d d' id_keys),
    (get_agree d d' time_keys); [reflexivity | | | | | ];
    intros k Hk; apply H; unfold aliases; rewrite !in_app_iff; tauto.
Qed.

Lemma data_total raw : exists ts, data raw = Some ts /\ length ts = length raw.
Proof.
  induction raw as [ | d raw (ts & E & L)]; [now exists [] | ].
  destruct (normalize_total d) as (str & _ & N).
  eexists. simpl. rewrite N, E. split; [reflexivity | ]. simpl. now rewrite L.
Qed.

(** X5: no sheet makes the normaliser fail, it gives one record per row,
    and it reads the eighteen alias columns only: two sheets whose rows agree
    on these columns give the same records, whatever else they hold. *)
Theorem other_columns_ignored (raw raw' : list RawRow) :
  Forall2 (fun d d' => forall k, In k aliases -> d !! k = d' !! k) raw raw' ->
  data raw = data raw' /\
  exists ts, data raw = Some ts /\ length ts = length raw.
Proof.
  intros H. split; [ | apply data_total].
  induction H as [ | d d' raw raw' Hd _ IH]; [reflexivity | ].
  simpl. now rewrite (normalize_agree d d' Hd), IH.
Qed.

Lemma other_columns_ignored_witness :
  let cells := [("Sales_amount", VStr "$4.50"); ("Month", VNum 3);
                ("coffee", VStr "Latte")] in
  data [row (("card", VStr "ANON-1") :: ("sales", VNum 9) :: cells)]
  = data [row cells].
Proof.
  apply (other_columns_ignored
           [row [("card", VStr "ANON-1"); ("sales", VNum 9);
                 ("Sales_amount", VStr "$4.50"); ("Month", VNum 3);
                 ("coffee", VStr "Latte")]]
           [row [("Sales_amount", VStr "$4.50"); ("Month", VNum 3);
                 ("coffee", VStr "Latte")]]).
  constructor; [ | constructor].
  intros k Hk. unfold aliases in Hk. simpl in Hk.
  repeat (destruct Hk as [<- | Hk]; [reflexivity | ]). destruct Hk.
Defined.

(** ** The characters removed from an amount *)

Lemma replace_class_skip (a b : string) (c : ascii) :
  in_class c = true ->
  replace_class (a ++ String c b)%string = replace_class (a ++ b)%string.
Proof.
  intros H. induction a as [ | x a IH]; simpl; [now rewrite H | ].
  now rewrite IH.
Qed.

Lemma get_insert_other d k v keys :
  ~ In k keys -> get (<[k := v]> d) keys = get d keys.
Proof.
  intros H. apply get_agree. intros k' Hk'.
  apply lookup_insert_ne. intros ->. now apply H.
Qed.

Lemma get_insert_head d k s keys :
  get (<[k := VStr s]> d) (k :: keys) = VStr s.
Proof.
  unfold get. simpl. unfold prop at 1. rewrite lookup_insert_eq.
  unfold js_find. simpl. unfold js_or. simpl.
  destruct s; reflexivity.
Qed.

(** X6: a dollar sign, a comma, a backslash or a letter [s] anywhere in the
    text of the amount cell changes nothing of the record the normaliser
    builds. *)
Theorem class_characters_ignored (d : RawRow) (a b : string) (c : ascii) :
  in_class c = true ->
  normalize (<["Sales_amount" := VStr (a ++ String c b)%string]> d)
  = normalize (<["Sales_amount" := VStr (a ++ b)%string]> d).
Proof.
  intros H. unfold normalize.
  change sales_keys with ("Sales_amount" :: ["sales_amount"; "Sales Amount"]).
  rewrite !get_insert_head. simpl toString. cbv iota.
  rewrite (replace_class_skip a b c H).
  assert (O : forall keys,
             forallb (fun k => negb (String.eqb "Sales_amount" k)) keys = true ->
             ~ In "Sales_amount" keys).
  { intros keys Hk K. rewrite forallb_forall in Hk. apply Hk in K.
    now rewrite String.eqb_refl in K. }
  now rewrite !(get_insert_other d _ _ month_keys (O month_keys eq_refl)),
    !(get_insert_other d _ _ name_keys (O name_keys eq_refl)),
    !(get_insert_other d _ _ id_keys (O id_keys eq_refl)),
    !(get_insert_other d _ _ time_keys (O time_keys eq_refl)).
Qed.

Lemma class_characters_ignored_witness :
  normalize (row [("Sales_amount", VStr "1s5")])
  = normalize (row [("Sales_amount", VStr "15")]) /\
  option_map sales (normalize (row [("Sales_amount", VStr "1s5")]))
  = Some 15%float.
Proof.
  split; [ | reflexivity].
  apply (class_characters_ignored ∅ "1" "5" "s"). reflexivity.
Defined.

(** ** Counting transactions *)

Lemma set_has_congr s a v :
  same_value_zero a v = true -> set_has s a = set_has s v.
Proof.
  intros H. unfold set_has.
  induction s as [ | x s IH]; simpl; [reflexivity | ].
  now rewrite IH, (svz_congr a v x H).
Qed.

Lemma set_has_add s a v :
  set_has (set_add s a) v = set_has s v || same_value_zero a v.
Proof.
  unfold set_add. destruct (set_has s a) eqn:E.
  - destruct (same_value_zero a v) eqn:Ea; [ | now rewrite orb_false_r].
    now rewrite orb_true_r, <- (set_has_congr s a v Ea).
  - unfold set_has. rewrite existsb_app. simpl. now rewrite orb_false_r.
Qed.

Lemma fold_set_add_mem l s v :
  set_has (fold_left set_add l s) v
  = set_has s v || existsb (fun v' => same_value_zero v' v) l.
Proof.
  revert s. induction l as [ | a l IH]; intros s; simpl;
    [now rewrite orb_false_r | ].
  now rewrite IH, set_has_add, orb_assoc.
Qed.

Lemma new_Set_mem l v :
  set_has (new_Set l) v = existsb (fun v' => same_value_zero v' v) l.
Proof. apply fold_set_add_mem. Qed.

Lemma new_Set_snoc l v : new_Set (l ++ [v]) = set_add (new_Set l) v.
Proof. unfold new_Set. now rewrite fold_left_app. Qed.

Lemma set_add_length s v :
  length (set_add s v) = if set_has s v then length s else S (length s).
Proof.
  unfold set_add. destruct (set_has s v); [reflexivity | ].
  rewrite length_app. simpl. lia.
Qed.

Lemma new_Set_length_le l : (length (new_Set l) <= length l)%nat.
Proof.
  induction l as [ | v l IH] using rev_ind; [simpl; lia | ].
  rewrite new_Set_snoc, set_add_length, length_app. simpl.
  destruct (set_has _ _); lia.
Qed.

(** Distinct values that all have a counterpart among others are no more
    than those. *)
Lemma apart_length_le (A B : list value) :
  List.NoDup A -> apart A ->
  (forall a, In a A -> exists b, In b B /\ same_value_zero b a = true) ->
  (length A <= length B)%nat.
Proof.
  revert B. induction A as [ | a A IH]; intros B N P H; [simpl; lia | ].
  destruct (H a (or_introl eq_refl)) as (b & Hb & Eb).
  apply in_split in Hb as (l1 & l2 & ->).
  inversion N as [ | ? ? Na NA]; subst.
  assert (L : (length A <= length (l1 ++ l2))%nat).
  { apply IH; [exact NA | | ].
    - intros x y Hx Hy. apply P; now right.
    - intros x Hx. destruct (H x (or_intror Hx)) as (y & Hy & Ey).
      exists y. split; [ | exact Ey].
      apply in_app_or in Hy as [Hy | [<- | Hy]];
        apply in_or_app; [now left | | now right].
      exfalso. apply Na.
      replace a with x; [exact Hx | ].
      apply P; [now right | now left | ].
      apply svz_trans with b; [now apply svz_sym | exact Eb]. }
  rewrite length_app in *. simpl. lia.
Qed.

Lemma new_Set_length_mono (A B : list value) :
  (forall a, In a A -> exists b, In b B /\ same_value_zero b a = true) ->
  (length (new_Set A) <= length (new_Set B))%nat.
Proof.
  intros H. apply apart_length_le;
    [apply new_Set_NoDup | apply new_Set_apart | ].
  intros a Ha. apply new_Set_In, H in Ha as (b & Hb & Eb).
  destruct (new_Set_has b B Hb) as (b' & Hb' & Eb').
  exists b'. split; [exact Hb' | now apply svz_trans with b].
Qed.

Lemma count_ids_filter (p : Transaction -> bool) rows :
  (count_ids (List.filter p rows) <= count_ids rows)%nat.
Proof.
  apply new_Set_length_mono. intros a Ha.
  apply in_map_iff in Ha as (r & <- & Hr). apply filter_In in Hr as [Hr _].
  exists (transaction_id r). split; [now apply in_map | apply svz_refl].
Qed.

(** X7: the number of transactions counts each identifier once: it is at
    most the number of rows; a further row adds one exactly when no earlier
    row has its identifier (SameValueZero); rows that all have the same
    identifier, such as the rows without one, count as one transaction at
    most; and no part of the rows, a time slot in particular, counts more
    transactions than the whole. *)
Theorem transactions_count_distinct_ids
    (rows : list Transaction) (r : Transaction) :
  (totalTransactions rows <= length rows)%nat /\
  totalTransactions (rows ++ [r])
  = (if existsb (fun r' => same_value_zero (transaction_id r')
                             (transaction_id r)) rows
     then totalTransactions rows
     else S (totalTransactions rows)) /\
  ((forall r', In r' rows -> transaction_id r' = transaction_id r) ->
   (totalTransactions rows <= 1)%nat) /\
  (forall p : Transaction -> bool,
      (totalTransactions (List.filter p rows) <= totalTransactions rows)%nat) /\
  (forall slot : string,
      (snd (fst (slotMetrics rows slot)) <= totalTransactions rows)%nat).
Proof.
  unfold totalTransactions. split; [ | split; [ | split; [ | split]]].
  - unfold count_ids. rewrite <- (length_map transaction_id rows).
    apply new_Set_length_le.
  - unfold count_ids. rewrite map_app. simpl map.
    rewrite new_Set_snoc, set_add_length, new_Set_mem.
    replace (existsb (fun v' => same_value_zero v' (transaction_id r))
               (map transaction_id rows))
      with (existsb (fun r' => same_value_zero (transaction_id r')
                                 (transaction_id r)) rows); [reflexivity | ].
    induction rows as [ | x rows IH]; simpl; [reflexivity | now rewrite IH].
  - intros H. apply one_value_set with (x := transaction_id r).
    intros v Hv. apply in_map_iff in Hv as (r' & <- & Hr'). now apply H.
  - intros p. apply count_ids_filter.
  - intros slot. simpl. apply count_ids_filter.
Qed.

(** ** The peak slot and the ranking *)

(** X8: the peak tile always names one of the three time slots, also for
    sales that are infinite or sum to NaN, and it names Morning when no row
    shown is at one of the three times of day, so with no row at all. *)
Theorem peakTime_is_a_slot (rows : list Transaction) :
  (exists slot, In slot timeSlots /\ peakTime rows = VStr slot) /\
  ((forall r, In r rows -> recognised r = false) ->
   peakTime rows = VStr "Morning").
Proof.
  split.
  - unfold peakTime, peak_of.
    assert (L := js_sort_length after_sales (salesByTime rows)).
    destruct (js_sort after_sales (salesByTime rows)) as [ | e tl] eqn:E;
      [discriminate L | ].
    assert (He : In e (salesByTime rows)).
    { apply (js_sort_In after_sales). rewrite E. now left. }
    exists (slot_name e). split.
    + rewrite <- (salesByTime_names rows). now apply in_map.
    + now destruct (slot_name_truthy rows e He) as [-> _].
  - intros H.
    assert (E : salesByTime rows = salesByTime []).
    { unfold salesByTime. apply map_ext_in. intros slot Hs.
      rewrite <- (in_slot_recognised slot rows Hs).
      replace (List.filter recognised rows) with (@nil Transaction);
        [reflexivity | ].
      symmetry. clear Hs. induction rows as [ | r rows IH]; [reflexivity | ].
      simpl. rewrite (H r (or_introl eq_refl)).
      apply IH. intros r' Hr'. apply H. now right. }
    unfold peakTime. rewrite E. reflexivity.
Qed.

(** X9: the names of the ranking are the distinct coffee names of the rows
    shown: no two entries have the same name (SameValueZero), every entry
    bears the name of a row, every row's name has its entry, the charts of a
    slot only name coffees sold in that slot, and the top three are empty
    only when no row is shown. *)
Theorem ranking_names_distinct (rows : list Transaction) :
  Permutation (map name (ranking rows)) (new_Set (map coffee_name rows)) /\
  List.NoDup (map name (ranking rows)) /\
  (forall a b, In a (ranking rows) -> In b (ranking rows) ->
               same_value_zero (name a) (name b) = true -> name a = name b) /\
  (forall e, In e (ranking rows) ->
             exists r, In r rows /\ coffee_name r = name e) /\
  (forall r, In r rows ->
             exists e, In e (ranking rows) /\
                       same_value_zero (name e) (coffee_name r) = true) /\
  (forall slot e, In e (top3BySlot rows slot) ->
                  exists r, In r rows /\ Time_of_Day r = VStr slot /\
                            coffee_name r = name e) /\
  (top3Overall rows = [] <-> rows = []).
Proof.
  assert (P := ranking_names rows).
  split; [exact P | ]. split; [ | split; [ | split; [ | split; [ | split]]]].
  - apply (Permutation_NoDup (l := new_Set (map coffee_name rows)));
      [now symmetry | apply new_Set_NoDup].
  - intros a b Ha Hb.
    apply (new_Set_apart (map coffee_name rows));
      apply (Permutation_in _ P); now apply in_map.
  - apply ranking_name_In.
  - intros r Hr.
    destruct (new_Set_has (coffee_name r) (map coffee_name rows))
      as (v & Hv & Ev); [now apply in_map | ].
    apply (Permutation_in _ (Permutation_sym P)) in Hv.
    apply in_map_iff in Hv as (e & <- & He). eauto.
  - intros slot e He.
    apply firstn_In, ranking_name_In in He as (r & Hr & Hn).
    apply filter_In in Hr as [Hr Hs]. apply strict_eq_str in Hs. eauto.
  - unfold top3Overall. split.
    + intros H.
      destruct (ranking rows) as [ | e tl] eqn:E; [ | discriminate H].
      apply (f_equal (@length _)) in E. rewrite ranking_length in E.
      apply length_zero_iff_nil, new_Set_nil in E.
      now destruct rows.
    + now intros ->.
Qed.

(** ** The money tiles *)

Lemma not_finite_Prim2SF x :
  isFinite x = false <->
  Prim2SF x = S754_nan \/ exists s, Prim2SF x = S754_infinity s.
Proof.
  unfold isFinite, is_infinity.
  rewrite negb_false_iff, orb_true_iff, is_nan_Prim2SF.
  rewrite FloatAxioms.eqb_spec, abs_spec. split.
  - intros [H | H]; [now left | ].
    destruct (Prim2SF x) as [sg | sg | | sg m e]; try discriminate H; eauto.
  - intros [H | [sg H]]; [now left | right]. now rewrite H.
Qed.

Lemma add_not_finite x y :
  isFinite x = false \/ isFinite y = false -> isFinite (x + y) = false.
Proof.
  rewrite !not_finite_Prim2SF, FloatAxioms.add_spec. unfold SF64add, SFadd.
  intros [[-> | [sx ->]] | [-> | [sy ->]]].
  - destruct (Prim2SF y) as [sg | sg | | sg m e]; now left.
  - destruct (Prim2SF y) as [sg | sg | | sg m e]; eauto.
    destruct sx, sg; eauto.
  - destruct (Prim2SF x) as [sg | sg | | sg m e]; now left.
  - destruct (Prim2SF x) as [sg | sg | | sg m e]; eauto.
    destruct sg, sy; eauto.
Qed.

Lemma div_not_finite x y : isFinite x = false -> isFinite (x / y) = false.
Proof.
  rewrite !not_finite_Prim2SF, FloatAxioms.div_spec. unfold SF64div, SFdiv.
  intros [-> | [sx ->]];
    destruct (Prim2SF y) as [sg | sg | | sg m e]; eauto.
Qed.

Lemma sum_fold_not_finite rows x :
  isFinite x = false \/ Exists (fun r => isFinite (sales r) = false) rows ->
  isFinite (fold_left (fun s d => (s + sales d)%float) rows x) = false.
Proof.
  revert x. induction rows as [ | r rows IH]; intros x H; simpl.
  - destruct H as [H | H]; [exact H | inversion H].
  - apply IH. destruct H as [H | H].
    + left. apply add_not_finite. now left.
    + inversion H as [? ? Hr | ? ? Hr]; subst; [ | now right].
      left. apply add_not_finite. now right.
Qed.

(** X10: when a row shown has an amount that is not finite (the text
    [Infinity] is read as such), the total is not finite either, and the
    tiles of the total and of the average both read [$0], whatever the
    locale. *)
Theorem nonfinite_amount_shows_zero
    (toLocaleString : float -> string) (rows : list Transaction) :
  Exists (fun r => isFinite (sales r) = false) rows ->
  isFinite (totalSales rows) = false /\
  formatMoney toLocaleString (totalSales rows) = "$0" /\
  formatMoney toLocaleString (avgValue rows) = "$0".
Proof.
  intros H.
  assert (T : isFinite (totalSales rows) = false)
    by (apply sum_fold_not_finite; now right).
  split; [exact T | ]. unfold formatMoney. rewrite T. split; [reflexivity | ].
  unfold avgValue, guarded_avg.
  destruct (totalTransactions rows) as [ | n] eqn:E.
  - apply count_ids_zero in E. subst rows. inversion H.
  - now rewrite (div_not_finite _ _ T).
Qed.

Lemma nonfinite_amount_shows_zero_witness :
  let rows := [sale 5 1 "Latte" "t1" "Morning";
               sale infinity 1 "Mocha" "t2" "Night"] in
  isFinite (totalSales rows) = false /\
  formatMoney Num.to_string (totalSales rows) = "$0" /\
  formatMoney Num.to_string (avgValue rows) = "$0".
Proof.
  apply (nonfinite_amount_shows_zero Num.to_string
           [sale 5 1 "Latte" "t1" "Morning";
            sale infinity 1 "Mocha" "t2" "Night"]).
  apply Exists_cons_tl, Exists_cons_hd. reflexivity.
Defined.

(** ** One product chosen *)

Lemma ranking_entry rows e :
  Forall (fun r => is_finite (sales r) = true) rows ->
  In e (ranking rows) ->
  total e = round2 (sum_sales (named (name e) rows)).
Proof.
  intros F He. unfold ranking in He.
  apply (proj1 (js_sort_In after_total _ _)) in He.
  apply in_map_iff in He as ([k x] & <- & Hk). simpl.
  apply group_total_is_sum; [exact F | now apply group_sales_In_get].
Qed.

(** X11: with a product other than [All] chosen and finite amounts, the
    ranking of the rows shown, when there are any, is the single entry of
    the chosen name, and its total is the total of the Total Sales tile
    rounded to two decimals. *)
Theorem chosen_coffee_ranking
    (data : list Transaction) (c : string) (lo hi : float) :
  c <> "All" ->
  Forall (fun r => is_finite (sales r) = true) data ->
  filtered data c lo hi <> [] ->
  top3Overall (filtered data c lo hi)
  = [{| name := VStr c;
        total := round2 (totalSales (filtered data c lo hi)) |}].
Proof.
  intros Hc F Hne.
  assert (E : String.eqb c "All" = false) by now apply String.eqb_neq.
  set (rows := filtered data c lo hi) in *.
  assert (K : forall t, In t rows -> coffee_name t = VStr c).
  { intros t Ht. apply filtered_In in Ht as (_ & Ht & _).
    rewrite E in Ht. now apply strict_eq_str. }
  assert (F' : Forall (fun r => is_finite (sales r) = true) rows)
    by now apply filter_Forall.
  assert (L1 : (length (ranking rows) <= 1)%nat).
  { rewrite ranking_length. apply one_value_set with (x := VStr c).
    intros v Hv. apply in_map_iff in Hv as (r & <- & Hr). now apply K. }
  assert (L0 : length (ranking rows) <> O).
  { rewrite ranking_length. intros Z.
    apply length_zero_iff_nil, new_Set_nil in Z.
    apply Hne. now destruct rows. }
  unfold top3Overall.
  destruct (ranking rows) as [ | e [ | e' tl]] eqn:R;
    [now contradiction L0 | | simpl in L1; lia].
  assert (He : In e (ranking rows)) by (rewrite R; now left).
  destruct (ranking_name_In rows e He) as (r & Hr & Hn).
  rewrite (K r Hr) in Hn.
  assert (T := ranking_entry rows e F' He). rewrite <- Hn in T.
  assert (N : named (VStr c) rows = rows).
  { apply filter_all, List.Forall_forall. intros t Ht.
    rewrite (K t Ht). apply svz_refl. }
  rewrite N in T. simpl. destruct e as [n t]. simpl in *. now subst.
Qed.

Lemma chosen_coffee_ranking_witness :
  top3Overall (filtered menu "Latte" 1 12)
  = [{| name := VStr "Latte";
        total := round2 (totalSales (filtered menu "Latte" 1 12)) |}] /\
  totalSales (filtered menu "Latte" 1 12) = 8%float.
Proof.
  split; [ | reflexivity].
  apply (chosen_coffee_ranking menu "Latte" 1 12); [discriminate | | ].
  - repeat constructor.
  - discriminate.
Defined.

(** ** Amounts that are not negative *)

Lemma nonneg_Prim2SF x :
  (zero <=? x)%float = true <->
  (exists s, Prim2SF x = S754_zero s) \/
  Prim2SF x = S754_infinity false \/
  (exists m e, Prim2SF x = S754_finite false m e).
Proof.
  rewrite FloatAxioms.leb_spec.
  change (Prim2SF zero) with (S754_zero false).
  destruct (Prim2SF x) as [s | [ | ] | | [ | ] m e]; simpl; split;
    try discriminate; eauto;
    intros [[s' H] | [H | (m' & e' & H)]]; try discriminate H; reflexivity.
Qed.

Lemma SFltb_zero_nonneg X :
  SFltb (S754_zero false) X = true ->
  X = S754_infinity false \/ exists m e, X = S754_finite false m e.
Proof. destruct X as [s | [ | ] | | [ | ] m e]; try discriminate; eauto. Qed.

Lemma add_nonneg x y :
  (zero <=? x)%float = true -> (zero <=? y)%float = true ->
  (zero <=? x + y)%float = true.
Proof.
  intros Hx Hy. apply nonneg_Prim2SF in Hx, Hy. apply nonneg_Prim2SF.
  rewrite FloatAxioms.add_spec.
  assert (Vx := Prim2SF_valid x). assert (Vy := Prim2SF_valid y).
  destruct Hx as [[sx Ex] | [Ex | (mx & ex & Ex)]];
    destruct Hy as [[sy Ey] | [Ey | (my & ey & Ey)]];
    rewrite Ex, Ey in *; unfold SF64add, SFadd; eauto.
  - destruct sx, sy; simpl; eauto.
  - right. apply SFltb_zero_nonneg.
    apply valid_finite in Vx as [_ Vx]. apply valid_finite in Vy as [_ Vy].
    rewrite binary_normalize_pos by lia.
    simpl cond_Zopp. apply Z.ltb_lt. lia.
Qed.

Lemma sum_fold_nonneg rows x :
  Forall (fun r => (zero <=? sales r)%float = true) rows ->
  (zero <=? x)%float = true ->
  (zero <=? fold_left (fun s d => (s + sales d)%float) rows x)%float = true.
Proof.
  intros H. revert x. induction H as [ | r rows Hr _ IH]; intros x Hx;
    [exact Hx | ].
  simpl. apply IH. now apply add_nonneg.
Qed.

Lemma binary_round_aux_nonneg m e l :
  binary_round_aux prec emax false m e l <> S754_nan ->
  SFleb (S754_zero false) (binary_round_aux prec emax false m e l) = true.
Proof.
  unfold binary_round_aux.
  destruct (shr_fexp prec emax m e l) as [mrs' e'].
  destruct (shr_fexp prec emax _ e' loc_Exact) as [mrs'' e''].
  destruct (shr_m mrs''); [reflexivity | | now intros H].
  now destruct (e'' <=? emax - prec).
Qed.

Lemma div_count_nonneg x n :
  (0 < n)%nat -> Z.of_nat n < 2 ^ prec ->
  (zero <=? x)%float = true -> (zero <=? x / Dec.of_nat n)%float = true.
Proof.
  intros Hn Hb Hx. apply nonneg_Prim2SF in Hx.
  rewrite FloatAxioms.leb_spec, FloatAxioms.div_spec.
  change (Prim2SF zero) with (S754_zero false).
  destruct (of_nat_finite n Hn Hb) as (m & e & E). rewrite E.
  destruct Hx as [[sx Ex] | [Ex | (mx & ex & Ex)]]; rewrite Ex;
    [now destruct sx | reflexivity | ].
  assert (N := SFdiv_finite_not_nan (S754_finite false mx ex) m e
                 ltac:(discriminate)).
  unfold SF64div in *. unfold SFdiv in *.
  destruct (SFdiv_core_binary prec emax (Zpos mx) ex (Zpos m) e)
    as [[mz ez] lz].
  now apply binary_round_aux_nonneg.
Qed.

(** X12: when no amount shown is negative, neither is any sum the dashboard
    shows: the total, the sum of each time slot and (below 2^53
    transactions) the average are 0 or more, hence not NaN. *)
Theorem totals_not_negative (rows : list Transaction) :
  Forall (fun r => (0 <=? sales r)%float = true) rows ->
  (0 <=? totalSales rows)%float = true /\
  (forall slot : string,
      (0 <=? fst (fst (slotMetrics rows slot)))%float = true) /\
  (Z.of_nat (totalTransactions rows) < 2 ^ 53 ->
   (0 <=? avgValue rows)%float = true).
Proof.
  intros H.
  assert (T : (0 <=? totalSales rows)%float = true)
    by now apply sum_fold_nonneg.
  split; [exact T | split].
  - intros slot. simpl. apply sum_fold_nonneg; [ | reflexivity].
    now apply filter_Forall.
  - intros B. unfold avgValue, guarded_avg.
    destruct (totalTransactions rows) as [ | n] eqn:E; [reflexivity | ].
    apply div_count_nonneg; [lia | exact B | exact T].
Qed.

Lemma totals_not_negative_witness :
  (0 <=? totalSales menu)%float = true /\
  (0 <=? avgValue menu)%float = true.
Proof.
  assert (F : Forall (fun r => (0 <=? sales r)%float = true) menu)
    by (repeat constructor).
  destruct (totals_not_negative menu F) as (T & _ & A).
  split; [exact T | apply A]. vm_compute. reflexivity.
Defined.
